(** * The relay's Redis service (servers/relay/src/redis.ts)

  A shallow embedding of [RedisStreamID] and [RedisService].  The Redis
  server is modelled as a keyspace of typed values with expiry deadlines
  and a millisecond clock; every service method is a computation over
  that store which either resolves with a value or is rejected with the
  server's error reply, as the awaited promises of the source do.
  Logging calls have no effect on the store and are left out.

  - [Js], [Glob]: string splitting and the glob patterns of SCAN.
  - [Redis]: the keyspace and the commands the service sends.
  - [Imports]: what redis.ts imports, as interfaces.
  - [RedisStreamID], [RedisService]: the two classes of the source.
  - [Relay]: the process around the service, with its blocked listeners.
  - [Runtime]: the imported functions, concretely, for running examples.
  - [Observe], [Scenario]: what the properties read, and what they run on.
  The properties follow, by component. *)

From Stdlib Require Import ZArith Ascii String.
From stdpp Require Import gmap strings pretty list fin_maps sorting.

Set Warnings "-register-all".

Local Open Scope string_scope.
Local Open Scope list_scope.
Local Open Scope Z_scope.

(** ** Strings as JavaScript uses them here *)

Module Js.

(** [s.split(sep)] for a one-character separator: the pieces between the
    separators, the empty string giving one empty piece. *)
Fixpoint split (sep : ascii) (s : string) : list string :=
  match s with
  | EmptyString => [EmptyString]
  | String c s' =>
      if Ascii.eqb c sep then EmptyString :: split sep s'
      else match split sep s' with
           | [] => [String c EmptyString]
           | w :: ws => String c w :: ws
           end
  end.

(** [a[i]]: [None] stands for [undefined]. *)
Definition index {A} (a : list A) (i : nat) : option A := a !! i.

(** The text of [s] before its first [sep] (all of [s] without one). *)
Fixpoint before (sep : ascii) (s : string) : string :=
  match s with
  | EmptyString => EmptyString
  | String c s' => if Ascii.eqb c sep then EmptyString else String c (before sep s')
  end.

Fixpoint occurs (sep : ascii) (s : string) : bool :=
  match s with
  | EmptyString => false
  | String c s' => Ascii.eqb c sep || occurs sep s'
  end.

End Js.

(** ** Glob patterns of SCAN's MATCH option *)

Module Glob.

Inductive item := Range (lo hi : ascii) | Single (c : ascii).

Inductive token :=
| Star
| Any
| Lit (c : ascii)
| Class (negated : bool) (items : list item).

(** One pass over the pattern; [cls] holds the bracket class being read. *)
Fixpoint tokens (cls : option (bool * list item)) (p : list ascii) : list token :=
  match cls, p with
  | None, [] => []
  | None, c :: p' =>
      if Ascii.eqb c "*" then Star :: tokens None p'
      else if Ascii.eqb c "?" then Any :: tokens None p'
      else if Ascii.eqb c "[" then
        match p' with
        | d :: p'' =>
            if Ascii.eqb d "^" then tokens (Some (true, [])) p''
            else tokens (Some (false, [])) p'
        | [] => tokens (Some (false, [])) p'
        end
      else if Ascii.eqb c "\" then
        match p' with
        | d :: p'' => Lit d :: tokens None p''
        | [] => Lit c :: tokens None p'
        end
      else Lit c :: tokens None p'
  | Some (neg, acc), [] => [Class neg acc]
  | Some (neg, acc), c :: p' =>
      let single := tokens (Some (neg, acc ++ [Single c])) p' in
      if Ascii.eqb c "\" then
        match p' with
        | d :: p'' => tokens (Some (neg, acc ++ [Single d])) p''
        | [] => single
        end
      else if Ascii.eqb c "]" then Class neg acc :: tokens None p'
      else
        match p' with
        | d :: hi :: p'' =>
            if Ascii.eqb d "-" then tokens (Some (neg, acc ++ [Range c hi])) p''
            else single
        | _ => single
        end
  end.

Definition item_has (c : ascii) (i : item) : bool :=
  match i with
  | Single d => Ascii.eqb c d
  | Range lo hi =>
      let (a, b) := if (nat_of_ascii hi <? nat_of_ascii lo)%nat then (hi, lo) else (lo, hi) in
      (nat_of_ascii a <=? nat_of_ascii c)%nat && (nat_of_ascii c <=? nat_of_ascii b)%nat
  end.

Fixpoint matches (ts : list token) (s : list ascii) : bool :=
  match ts with
  | [] => match s with [] => true | _ => false end
  | Star :: ts' =>
      (fix skip (s : list ascii) : bool :=
         matches ts' s || match s with [] => false | _ :: s' => skip s' end) s
  | Any :: ts' => match s with [] => false | _ :: s' => matches ts' s' end
  | Lit c :: ts' =>
      match s with [] => false | d :: s' => Ascii.eqb c d && matches ts' s' end
  | Class neg items :: ts' =>
      match s with
      | [] => false
      | d :: s' => xorb neg (existsb (item_has d) items) && matches ts' s'
      end
  end.

Definition stringmatch (pattern s : string) : bool :=
  matches (tokens None (list_ascii_of_string pattern)) (list_ascii_of_string s).

(** Characters that a pattern reads as themselves. *)
Definition plain (c : ascii) : bool :=
  negb (Ascii.eqb c "*" || Ascii.eqb c "?" || Ascii.eqb c "[" || Ascii.eqb c "\").

Fixpoint literal (s : string) : bool :=
  match s with
  | EmptyString => true
  | String c s' => plain c && literal s'
  end.

End Glob.

(** ** The Redis server as the service sees it *)

Module Redis.

(** A stream entry: its id [(milliseconds, sequence)] and its fields. *)
Record entry := Entry { entry_id : Z * Z; entry_message : list (string * string) }.

Inductive value :=
| VString (s : string)
| VSet (members : gset string)
| VList (items : list string)
| VStream (entries : list entry).

(** [expires] holds the deadline (in ms) of the keys that have one. *)
Record db := Db { keyspace : gmap string value; expires : gmap string Z; now : Z }.

Definition empty : db := Db ∅ ∅ 0.

Inductive error := WRONGTYPE.

Inductive promise (A : Type) := Resolved (a : A) | Rejected (e : error).
Arguments Resolved {A} a.
Arguments Rejected {A} e.

(** A command or a service method: the settled promise and the store it leaves. *)
Definition async (A : Type) : Type := db → promise A * db.

#[export] Instance async_ret : MRet async := λ A a st, (Resolved a, st).
#[export] Instance async_bind : MBind async := λ A B k m st,
  match m st with
  | (Resolved a, st') => k a st'
  | (Rejected e, st') => (Rejected e, st')
  end.

Definition reject {A} (e : error) : async A := λ st, (Rejected e, st).
Definition lookup_key (key : string) : async (option value) :=
  λ st, (Resolved (keyspace st !! key), st).

(** Writing a value keeps the key's deadline; removing a key drops it. *)
Definition put (key : string) (v : value) : async unit :=
  λ st, (Resolved tt, Db (<[key := v]> (keyspace st)) (expires st) (now st)).
Definition remove (key : string) : async unit :=
  λ st, (Resolved tt, Db (delete key (keyspace st)) (delete key (expires st)) (now st)).

Definition sAdd (key member : string) : async Z :=
  v ← lookup_key key;
  match v with
  | None => put key (VSet {[member]});; mret 1
  | Some (VSet s) =>
      put key (VSet ({[member]} ∪ s));;
      mret (if decide (member ∈ s) then 0 else 1)
  | Some _ => reject WRONGTYPE
  end.

Definition sRem (key member : string) : async Z :=
  v ← lookup_key key;
  match v with
  | None => mret 0
  | Some (VSet s) =>
      let s' := s ∖ {[member]} in
      (if decide (s' = ∅) then remove key else put key (VSet s'));;
      mret (if decide (member ∈ s) then 1 else 0)
  | Some _ => reject WRONGTYPE
  end.

Definition sMembers (key : string) : async (list string) :=
  v ← lookup_key key;
  match v with
  | None => mret []
  | Some (VSet s) => mret (elements s)
  | Some _ => reject WRONGTYPE
  end.

(** The members an [sScanIterator] with a MATCH pattern yields, in the
    order of the scan. *)
Definition sScanIterator (key pattern : string) : async (list string) :=
  ms ← sMembers key;
  mret (List.filter (Glob.stringmatch pattern) ms).

Definition lPush (key element : string) : async Z :=
  v ← lookup_key key;
  match v with
  | None => put key (VList [element]);; mret 1
  | Some (VList l) => put key (VList (element :: l));; mret (Z.of_nat (S (length l)))
  | Some _ => reject WRONGTYPE
  end.

(** An index of LRANGE on a list of [len] items: a negative one counts
    from the end. *)
Definition position (len i : Z) : Z := if decide (i < 0) then len + i else i.

(** LRANGE: the items from [start] to [stop], both included. *)
Definition lRange (key : string) (start stop : Z) : async (list string) :=
  v ← lookup_key key;
  match v with
  | None => mret []
  | Some (VList l) =>
      let len := Z.of_nat (length l) in
      let first := Z.max 0 (position len start) in
      let last := Z.min (len - 1) (position len stop) in
      mret (take (Z.to_nat (last - first + 1)) (drop (Z.to_nat first) l))
  | Some _ => reject WRONGTYPE
  end.

Definition del (key : string) : async Z :=
  v ← lookup_key key;
  match v with
  | None => mret 0
  | Some _ => remove key;; mret 1
  end.

(** SET replaces a value of any type and clears the key's deadline. *)
Definition set (key val : string) : async unit :=
  λ st, (Resolved tt, Db (<[key := VString val]> (keyspace st)) (delete key (expires st)) (now st)).

Definition get (key : string) : async (option string) :=
  v ← lookup_key key;
  match v with
  | None => mret None
  | Some (VString s) => mret (Some s)
  | Some _ => reject WRONGTYPE
  end.

(** EXPIRE: nothing on a missing key; a timeout that is not positive
    removes the key at once; otherwise the deadline is set. *)
Definition expire (key : string) (seconds : Z) : async bool :=
  v ← lookup_key key;
  match v with
  | None => mret false
  | Some _ =>
      (if decide (seconds ≤ 0) then remove key
       else λ st, (Resolved tt,
                   Db (keyspace st) (<[key := now st + seconds * 1000]> (expires st)) (now st)));;
      mret true
  end.

(** The id XADD gives an entry added with ["*"]. *)
Definition next_id (es : list entry) (clock : Z) : Z * Z :=
  match last es with
  | None => (clock, 0)
  | Some e =>
      let '(ms, seq) := entry_id e in
      if decide (ms < clock) then (clock, 0) else (ms, seq + 1)
  end.

Definition xAdd_auto (key : string) (message : list (string * string)) : async (Z * Z) :=
  v ← lookup_key key;
  match v with
  | None =>
      λ st, let id := next_id [] (now st) in
            (put key (VStream [Entry id message]);; mret id) st
  | Some (VStream es) =>
      λ st, let id := next_id es (now st) in
            (put key (VStream (es ++ [Entry id message]));; mret id) st
  | Some _ => reject WRONGTYPE
  end.

(** Time passing: the clock moves on and the keys past their deadline go. *)
Definition live (expires : gmap string Z) (clock : Z) (key : string) : bool :=
  match expires !! key with
  | Some deadline => bool_decide (clock ≤ deadline)
  | None => true
  end.

Definition advance (ms : Z) (st : db) : db :=
  let clock := now st + ms in
  Db (filter (λ kv, live (expires st) clock kv.1 = true) (keyspace st))
     (filter (λ kd, clock ≤ kd.2) (expires st))
     clock.

End Redis.

(** ** What redis.ts imports *)

Module Import Imports.

(** JavaScript numbers as far as [parseInt] produces them. *)
Inductive number := NaN | Num (z : Z) | Infinity (negative : bool).

(** [a > b] on numbers: false as soon as one side is [NaN]. *)
Definition gt (a b : number) : bool :=
  match a, b with
  | NaN, _ | _, NaN => false
  | Num x, Num y => bool_decide (y < x)
  | Num _, Infinity negative => negative
  | Infinity negative, Num _ => negb negative
  | Infinity na, Infinity nb => negb na && nb
  end.

(** [encoding.utf8ToNumber] of @walletconnect/encoding; the argument [None]
    is [undefined], which a destructured [split] gives for a missing part. *)
Class Encoding := { utf8ToNumber : option string → number }.

(** [sha256] of ./utils. *)
Class Digest := { sha256 : string → string }.

(** [safeJsonParse] and [safeJsonStringify] of @walletconnect/safe-json over
    the values [V] the relay stores, and the [topic] property of such a value. *)
Class SafeJson (V : Type) := {
  safeJsonParse : string → V;
  safeJsonStringify : V → string;
  topic_of : V → string
}.

(** [IridiumV1MessageOptions] of ./types, with the flag that [publish]
    sets and [emitWakuMessage] reads. *)
Record IridiumV1MessageOptions := { prompt : bool }.

(** [IridiumEncoder] of ./encoder.  [decode] is given the payload read from
    the stream, [None] when the entry has no such field; its result is
    [None] when the promise is rejected. *)
Class IridiumEncoder := {
  encode : string → IridiumV1MessageOptions → string;
  decode : option string → option (string * IridiumV1MessageOptions)
}.

(** [server.config.maxTTL], in seconds. *)
Class Config := { maxTTL : Z }.

(** Modelled from the spec: [SIX_HOURS] of @walletconnect/time is missing;
    the legacy list is given a fixed expiry of six hours, in seconds. *)
Definition SIX_HOURS : Z := 21600.

(** [RelayJsonRpc.PublishParams] as [setMessage] reads it. *)
Record PublishParams := { topic : string; message : string; ttl : Z }.

(** The arguments of a [NETWORK_EVENTS.message] event on [server.events]. *)
Record NetworkMessage := { nm_topic : string; nm_message : string; nm_prompt : bool }.

End Imports.

(** ** RedisStreamID *)

Module RedisStreamID.
Section WithEncoding.
Context `{Encoding}.

Record t := { value : string; sequence : number; timestamp : number }.

Definition new (value : string) : t :=
  let parts := Js.split "-" value in
  {| value := value;
     sequence := utf8ToNumber (Js.index parts 1);
     timestamp := utf8ToNumber (Js.index parts 0) |}.

Definition isHigher (this id : t) : bool :=
  let parts := Js.split "-" (value id) in
  let sequence' := utf8ToNumber (Js.index parts 1) in
  let timestamp' := utf8ToNumber (Js.index parts 0) in
  if gt (timestamp this) timestamp' then true
  else if gt (sequence this) sequence' then true
  else false.

End WithEncoding.
End RedisStreamID.

(** ** RedisService *)

Module RedisService.
Import Redis.

Section WithImports.
Context `{Digest} {V : Type} `{SafeJson V} `{IridiumEncoder} `{Config}.

(** [`pending:${id}`]; the id of a request is an integer. *)
Definition pending_key (id : Z) : string := "pending:" +:+ pretty id.

(** [result.forEach(x => out.push(f(x)))] on an initially empty [out]. *)
Definition forEach_push {A B} (f : A → B) (result : list A) : list B :=
  foldl (λ out x, out ++ [f x]) [] result.

Definition setMessage (params : PublishParams) : async unit :=
  let key := "message:" +:+ topic params in
  let hash := sha256 (message params) in
  let val := hash +:+ ":" +:+ message params in
  sAdd key val;;
  expire key (ttl params);;
  mret tt.

(** The loop over the scan returns at its first member. *)
Definition getMessage (topic hash : string) : async (option string) :=
  members ← sScanIterator ("message:" +:+ topic) (hash +:+ ":*");
  match members with
  | member :: _ => mret (Js.index (Js.split ":" member) 1)
  | [] => mret None
  end.

(** [sMembers] resolves with an array of strings, so the tests on [result]
    and on [m] keep every member. *)
Definition getMessages (topic : string) : async (list (option string)) :=
  result ← sMembers ("message:" +:+ topic);
  mret (forEach_push (λ m, Js.index (Js.split ":" m) 1) result).

Definition deleteMessage (topic hash : string) : async unit :=
  members ← sScanIterator ("message:" +:+ topic) (hash +:+ ":*");
  foldr (λ member rest, sRem ("message:" +:+ topic) member;; rest) (mret tt) members.

Definition setLegacyCached (message : V) : async unit :=
  lPush ("legacy:" +:+ topic_of message) (safeJsonStringify message);;
  expire ("legacy:" +:+ topic_of message) SIX_HOURS;;
  mret tt.

(** The [del] is sent without being awaited; the connection runs it next. *)
Definition getLegacyCached (topic : string) : async (list V) :=
  result ← lRange ("legacy:" +:+ topic) 0 (-1);
  let messages := forEach_push safeJsonParse result in
  del ("legacy:" +:+ topic);;
  mret messages.

Definition setNotification (notification : V) : async unit :=
  lPush ("notification:" +:+ topic_of notification) (safeJsonStringify notification);;
  mret tt.

Definition getNotification (topic : string) : async (list V) :=
  result ← lRange ("notification:" +:+ topic) 0 (-1);
  mret (forEach_push safeJsonParse result).

Definition setPendingRequest (topic : string) (id : Z) (message : string) : async unit :=
  let key := pending_key id in
  let hash := sha256 message in
  let val := topic +:+ ":" +:+ hash in
  set key val;;
  expire key maxTTL;;
  mret tt.

(** [data ? data : ""]: a missing value and an empty one both give [""]. *)
Definition getPendingRequest (id : Z) : async string :=
  data ← get (pending_key id);
  mret (match data with
        | Some (String c s) => String c s
        | Some EmptyString | None => EmptyString
        end).

Definition deletePendingRequest (id : Z) : async unit :=
  del (pending_key id);;
  mret tt.

(** [opts] is accepted and not read: the envelope is encoded with
    [{prompt: true}]. *)
Definition publish (topic message : string) (opts : option IridiumV1MessageOptions)
  : async unit :=
  let payload := encode message {| prompt := true |} in
  xAdd_auto topic [("payload", payload)];;
  mret tt.

Definition getStoreMessages (topic : string) : async unit := mret tt.

(** *** The stream listener

    A task is what a started listener still has to do: wait for the reply
    of a blocking read, emit on [server.events], or nothing. *)

(** One stream of an XREAD reply: its key and its entries, of which Redis
    sends at least one. *)
Record XReadStream := { xr_name : string; xr_first : entry; xr_rest : list entry }.

Inductive task :=
| Return
| Emit (e : NetworkMessage) (k : task)
| AwaitXRead (key : string) (k : option (list XReadStream) → task).

(** The field [payload] of an entry, [None] when it has none. *)
Definition payload_field (e : entry) : option string :=
  snd <$> List.find (λ kv, String.eqb (fst kv) "payload") (entry_message e).

Definition emitWakuMessage (topic : string) (payload : option string) : task :=
  match decode payload with
  | Some (message, opts) =>
      Emit {| nm_topic := topic; nm_message := message; nm_prompt := prompt opts |} Return
  | None => Return
  end.

(** [payload] starts as [""] and is read from the first entry of the
    first stream of a reply that is neither [null] nor empty. *)
Definition streamListener (topic : string) : task :=
  AwaitXRead topic (λ response,
    let payload :=
      match response with
      | Some (messages :: _) => payload_field (xr_first messages)
      | Some [] | None => Some EmptyString
      end in
    if decide (payload = Some EmptyString) then Return
    else emitWakuMessage topic payload).

End WithImports.
End RedisService.

(** ** The relay process: the client's store, the listeners blocked in a
    read, and what was emitted on [server.events] *)

Module Relay.
Import Redis RedisService.

Record world := World {
  client : db;
  waiting : list task;
  emitted : list NetworkMessage
}.

Definition boot : world := World Redis.empty [] [].

(** A task runs until it returns or blocks in a read. *)
Fixpoint run (t : task) : list NetworkMessage * option task :=
  match t with
  | Return => ([], None)
  | Emit e k => let '(es, blocked) := run k in (e :: es, blocked)
  | AwaitXRead _ _ => ([], Some t)
  end.

Definition stream_entries (key : string) (st : db) : list entry :=
  match keyspace st !! key with
  | Some (VStream es) => es
  | _ => []
  end.

(** [xRead] with id ["$"], COUNT 1 and BLOCK 0: the reply carries the first
    entry added to the key after the read was sent. *)
Definition wake (before after : db) (t : task) : list NetworkMessage * option task :=
  match t with
  | AwaitXRead key k =>
      match drop (length (stream_entries key before)) (stream_entries key after) with
      | e :: _ => run (k (Some [ {| xr_name := key; xr_first := e; xr_rest := [] |} ]))
      | [] => ([], Some t)
      end
  | _ => run t
  end.

Definition serve (before : db) (w : world) : world :=
  let woken := wake before (client w) <$> waiting w in
  World (client w) (omap snd woken) (emitted w ++ concat (fst <$> woken)).

(** A command of the service, after which Redis serves the blocked reads. *)
Definition exec {A} (m : async A) (w : world) : promise A * world :=
  let '(r, st) := m (client w) in
  (r, serve (client w) (World st (waiting w) (emitted w))).

(** A blocking read on a key of another type is answered with an error at
    once, which ends the listener. *)
Definition start (t : task) (w : world) : world :=
  let '(es, blocked) := run t in
  let blocked' :=
    match blocked with
    | Some (AwaitXRead key _) =>
        match keyspace (client w) !! key with
        | None | Some (VStream _) => blocked
        | Some _ => None
        end
    | _ => blocked
    end in
  World (client w) (waiting w ++ option_list blocked') (emitted w ++ es).

Section WithImports.
Context `{IridiumEncoder}.

(** [server.on(JSONRPC_EVENTS.subscribe, ...)] as [initialize] registers it. *)
Definition on_subscribe (topic : string) (w : world) : world :=
  start (streamListener topic) w.

End WithImports.
End Relay.

(** ** The imported functions, concretely *)

Module Runtime.

(** *** [parseInt(s, 10)]: leading white space (the ASCII one), a sign, the
    longest run of decimal digits, rounded to a double. *)

Definition is_space (c : ascii) : bool :=
  let n := nat_of_ascii c in ((n =? 32) || ((9 <=? n) && (n <=? 13)))%nat.

Fixpoint trim_start (s : string) : string :=
  match s with
  | String c s' => if is_space c then trim_start s' else s
  | EmptyString => EmptyString
  end.

Definition digit (c : ascii) : option Z :=
  let n := Z.of_nat (nat_of_ascii c) in
  if (48 <=? n) && (n <=? 57) then Some (n - 48) else None.

(** The value of the longest prefix of decimal digits, [None] without one. *)
Fixpoint digits (acc : option Z) (s : string) : option Z :=
  match s with
  | String c s' =>
      match digit c with
      | Some d => digits (Some (10 * default 0 acc + d)) s'
      | None => acc
      end
  | EmptyString => acc
  end.

(** The double nearest to a natural number, ties to even. *)
Definition to_double (n : Z) : number :=
  let bits := if decide (n = 0) then 0 else Z.log2 n + 1 in
  if decide (bits ≤ 53) then Num n
  else
    let sh := bits - 53 in
    let q := Z.shiftr n sh in
    let r := Z.land n (Z.ones sh) in
    let half := Z.shiftl 1 (sh - 1) in
    let q' := if (half <? r) || ((r =? half) && Z.odd q) then q + 1 else q in
    let v := Z.shiftl q' sh in
    if decide (v < 2 ^ 1024) then Num v else Infinity false.

Definition negate (x : number) : number :=
  match x with
  | NaN => NaN
  | Num z => Num (- z)
  | Infinity negative => Infinity (negb negative)
  end.

Definition parseInt10 (s : string) : number :=
  let s := trim_start s in
  let '(negative, s) :=
    match s with
    | String c r =>
        if Ascii.eqb c "-" then (true, r)
        else if Ascii.eqb c "+" then (false, r)
        else (false, s)
    | EmptyString => (false, s)
    end in
  match digits None s with
  | None => NaN
  | Some n => if negative then negate (to_double n) else to_double n
  end.

(** Modelled from the spec: [utf8ToNumber] of @walletconnect/encoding is
    missing; the comparator parses each part of an id into a number, here
    with [parseInt(utf8, 10)], [undefined] being read as its name. *)
#[export] Instance encoding : Encoding :=
  {| utf8ToNumber := λ utf8, parseInt10 (default "undefined" utf8) |}.

(** *** SHA-256 *)

Definition w32 (x : Z) : Z := x mod 2 ^ 32.
Definition rotr (n x : Z) : Z := w32 (Z.lor (Z.shiftr x n) (Z.shiftl x (32 - n))).
Definition ch (x y z : Z) : Z := Z.lxor (Z.land x y) (Z.land (Z.lxor x (Z.ones 32)) z).
Definition maj (x y z : Z) : Z := Z.lxor (Z.lxor (Z.land x y) (Z.land x z)) (Z.land y z).
Definition bsig0 (x : Z) : Z := Z.lxor (Z.lxor (rotr 2 x) (rotr 13 x)) (rotr 22 x).
Definition bsig1 (x : Z) : Z := Z.lxor (Z.lxor (rotr 6 x) (rotr 11 x)) (rotr 25 x).
Definition ssig0 (x : Z) : Z := Z.lxor (Z.lxor (rotr 7 x) (rotr 18 x)) (Z.shiftr x 3).
Definition ssig1 (x : Z) : Z := Z.lxor (Z.lxor (rotr 17 x) (rotr 19 x)) (Z.shiftr x 10).

(** The first primes, by trial division. *)
Definition is_prime (n : nat) : bool :=
  forallb (λ d, negb (n mod d =? 0)%nat) (seq 2 (n - 2)).

Definition primes (count : nat) : list Z :=
  Z.of_nat <$> take count (List.filter is_prime (seq 2 310)).

(** The integer cube root of [x], one bit at a time below bit [n]. *)
Fixpoint cube_root (n : nat) (x root : Z) : Z :=
  match n with
  | O => root
  | S n' =>
      let r := root + 2 ^ Z.of_nat n' in
      cube_root n' x (if r * r * r <=? x then r else root)
  end.

(** The round constants: the first 32 bits of the fractional parts of the
    cube roots of the first 64 primes. *)
Definition K : list Z :=
  Eval vm_compute in (λ p, w32 (cube_root 40 (p * 2 ^ 96) 0)) <$> primes 64.

(** The initial hash value: the same of the square roots of the first 8. *)
Definition H0 : list Z :=
  Eval vm_compute in (λ p, w32 (Z.sqrt (p * 2 ^ 64))) <$> primes 8.

(** The message bytes, the bit 1, zeros, and the bit length on 8 bytes. *)
Definition pad (bytes : list Z) : list Z :=
  let n := Z.of_nat (length bytes) in
  let zeros := Z.to_nat ((55 - n) mod 64) in
  bytes ++ [0x80] ++ replicate zeros 0
        ++ ((λ i, Z.shiftr (8 * n) (8 * (7 - Z.of_nat i)) mod 256) <$> seq 0 8).

Fixpoint words (bytes : list Z) : list Z :=
  match bytes with
  | a :: b :: c :: d :: rest => (((a * 256 + b) * 256 + c) * 256 + d) :: words rest
  | _ => []
  end.

(** The message schedule, latest word first. *)
Fixpoint schedule (n : nat) (ws : list Z) : list Z :=
  match n with
  | O => ws
  | S n' =>
      let at_ i := default 0 (ws !! i) in
      schedule n' (w32 (ssig1 (at_ 1%nat) + at_ 6%nat + ssig0 (at_ 14%nat) + at_ 15%nat) :: ws)
  end.

Definition round (s : list Z) (kw : Z * Z) : list Z :=
  match s with
  | [a; b; c; d; e; f; g; h] =>
      let t1 := h + bsig1 e + ch e f g + kw.1 + kw.2 in
      let t2 := bsig0 a + maj a b c in
      [w32 (t1 + t2); a; b; c; w32 (d + t1); e; f; g]
  | _ => s
  end.

Definition compress (h : list Z) (block : list Z) : list Z :=
  let w := reverse (schedule 48 (reverse block)) in
  zip_with (λ x y, w32 (x + y)) h (foldl round h (zip K w)).

Fixpoint blocks (n : nat) (h : list Z) (ws : list Z) : list Z :=
  match n with
  | O => h
  | S n' => blocks n' (compress h (take 16 ws)) (drop 16 ws)
  end.

Definition hex_digit (d : Z) : ascii :=
  ascii_of_nat (Z.to_nat (if decide (d < 10) then 48 + d else 87 + d)).

Definition hex_word (w : Z) : list ascii :=
  (λ i, hex_digit (Z.shiftr w (4 * (7 - Z.of_nat i)) mod 16)) <$> seq 0 8.

Definition sha256_hex (data : string) : string :=
  let bytes := (λ c, Z.of_nat (nat_of_ascii c)) <$> list_ascii_of_string data in
  let ws := words (pad bytes) in
  string_of_list_ascii (concat (hex_word <$> blocks (length ws / 16) H0 ws)).

(** Modelled from the spec: [sha256] of ./utils is missing; the spec calls
    it a deterministic content digest, taken here as the hexadecimal
    SHA-256 of the text that the name announces. *)
#[export] Instance digest : Digest := {| sha256 := sha256_hex |}.

(** *** JSON, as [JSON.parse] reads it and [JSON.stringify] writes it.
    A number keeps the text of its literal. *)

Inductive json :=
| JNull
| JBool (b : bool)
| JNumber (literal : string)
| JString (s : string)
| JArray (items : list json)
| JObject (members : list (string * json)).

Definition dquote : ascii := "034"%char.
Definition code (c : ascii) : Z := Z.of_nat (nat_of_ascii c).
Definition chr (n : Z) : ascii := ascii_of_nat (Z.to_nat n).

Definition is_json_space (c : ascii) : bool :=
  (code c =? 32) || (code c =? 9) || (code c =? 10) || (code c =? 13).

Fixpoint skip_ws (s : string) : string :=
  match s with
  | String c s' => if is_json_space c then skip_ws s' else s
  | EmptyString => EmptyString
  end.

Definition is_digit (c : ascii) : bool := (48 <=? code c) && (code c <=? 57).

Fixpoint span (p : ascii → bool) (s : string) : string * string :=
  match s with
  | String c s' => if p c then let '(a, b) := span p s' in (String c a, b) else (EmptyString, s)
  | EmptyString => (EmptyString, EmptyString)
  end.

(** Strips [prefix] from [s]. *)
Fixpoint strip (prefix s : string) : option string :=
  match prefix, s with
  | EmptyString, _ => Some s
  | String a p', String b s' => if Ascii.eqb a b then strip p' s' else None
  | String _ _, EmptyString => None
  end.

(** A number literal: sign, integer part without a leading zero, fraction,
    exponent. *)
Definition number_literal (s : string) : option (string * string) :=
  let '(sign, s) := match strip "-" s with Some r => ("-", r) | None => (EmptyString, s) end in
  let '(int, s) := span is_digit s in
  match int with
  | EmptyString => None
  | String d ds =>
      if Ascii.eqb d "0" && negb (String.eqb ds EmptyString) then None
      else
        frac ← match strip "." s with
               | Some r => let '(f, r') := span is_digit r in
                           if String.eqb f EmptyString then None else Some ("." +:+ f, r')
               | None => Some (EmptyString, s)
               end;
        let '(f, s) := frac in
        ex ← match s with
             | String e r =>
                 if Ascii.eqb e "e" || Ascii.eqb e "E" then
                   let '(sg, r) := match r with
                                   | String g r' =>
                                       if Ascii.eqb g "+" || Ascii.eqb g "-"
                                       then (String g EmptyString, r') else (EmptyString, r)
                                   | EmptyString => (EmptyString, r)
                                   end in
                   let '(x, r') := span is_digit r in
                   if String.eqb x EmptyString then None
                   else Some (String e sg +:+ x, r')
                 else Some (EmptyString, s)
             | EmptyString => Some (EmptyString, s)
             end;
        let '(x, s) := ex in
        Some (sign +:+ int +:+ f +:+ x, s)
  end.

Definition hex_value (c : ascii) : option Z :=
  let n := code c in
  if (48 <=? n) && (n <=? 57) then Some (n - 48)
  else if (97 <=? n) && (n <=? 102) then Some (n - 87)
  else if (65 <=? n) && (n <=? 70) then Some (n - 55)
  else None.

(** The UTF-8 bytes of a code unit below 2^16. *)
Definition utf8 (u : Z) : string :=
  if u <? 128 then String (chr u) EmptyString
  else if u <? 2048 then
    String (chr (192 + u / 64)) (String (chr (128 + u mod 64)) EmptyString)
  else
    String (chr (224 + u / 4096))
      (String (chr (128 + (u / 64) mod 64)) (String (chr (128 + u mod 64)) EmptyString)).

Definition simple_escape (e : ascii) : option ascii :=
  if Ascii.eqb e dquote then Some dquote
  else if Ascii.eqb e "\" then Some "\"%char
  else if Ascii.eqb e "/" then Some "/"%char
  else if Ascii.eqb e "b" then Some (chr 8)
  else if Ascii.eqb e "f" then Some (chr 12)
  else if Ascii.eqb e "n" then Some (chr 10)
  else if Ascii.eqb e "r" then Some (chr 13)
  else if Ascii.eqb e "t" then Some (chr 9)
  else None.

(** The text of a string literal after its opening quote, and what follows
    the closing one.  An escaped code unit is written in UTF-8 on its own. *)
Fixpoint string_body (s : string) : option (string * string) :=
  match s with
  | EmptyString => None
  | String c r =>
      if Ascii.eqb c dquote then Some (EmptyString, r)
      else if Ascii.eqb c "\" then
        match r with
        | String e r' =>
            if Ascii.eqb e "u" then
              match r' with
              | String h1 (String h2 (String h3 (String h4 r''))) =>
                  a ← hex_value h1; b ← hex_value h2; c' ← hex_value h3; d ← hex_value h4;
                  rest ← string_body r'';
                  Some (utf8 (((a * 16 + b) * 16 + c') * 16 + d) +:+ rest.1, rest.2)
              | _ => None
              end
            else
              x ← simple_escape e;
              rest ← string_body r';
              Some (String x rest.1, rest.2)
        | EmptyString => None
        end
      else if code c <? 32 then None
      else rest ← string_body r; Some (String c rest.1, rest.2)
  end.

Section Parser.
Variable value : string → option (json * string).

Fixpoint elements (n : nat) (s : string) : option (list json * string) :=
  match n with
  | O => None
  | S n' =>
      v ← value s;
      match skip_ws v.2 with
      | String c r =>
          if Ascii.eqb c "," then vs ← elements n' r; Some (v.1 :: vs.1, vs.2)
          else if Ascii.eqb c "]" then Some ([v.1], r)
          else None
      | EmptyString => None
      end
  end.

Fixpoint members (n : nat) (s : string) : option (list (string * json) * string) :=
  match n with
  | O => None
  | S n' =>
      k ← (r ← strip (String dquote EmptyString) (skip_ws s); string_body r);
      r ← strip ":" (skip_ws k.2);
      v ← value r;
      match skip_ws v.2 with
      | String c r =>
          if Ascii.eqb c "," then ms ← members n' r; Some ((k.1, v.1) :: ms.1, ms.2)
          else if Ascii.eqb c "}" then Some ([(k.1, v.1)], r)
          else None
      | EmptyString => None
      end
  end.

End Parser.

Fixpoint value (fuel : nat) (s : string) : option (json * string) :=
  match fuel with
  | O => None
  | S fuel' =>
      match skip_ws s with
      | EmptyString => None
      | String c r as s' =>
          if Ascii.eqb c "{" then
            match strip "}" (skip_ws r) with
            | Some r' => Some (JObject [], r')
            | None => ms ← members (value fuel') fuel' r; Some (JObject ms.1, ms.2)
            end
          else if Ascii.eqb c "[" then
            match strip "]" (skip_ws r) with
            | Some r' => Some (JArray [], r')
            | None => vs ← elements (value fuel') fuel' r; Some (JArray vs.1, vs.2)
            end
          else if Ascii.eqb c dquote then t ← string_body r; Some (JString t.1, t.2)
          else match strip "null" s', strip "true" s', strip "false" s' with
               | Some r', _, _ => Some (JNull, r')
               | _, Some r', _ => Some (JBool true, r')
               | _, _, Some r' => Some (JBool false, r')
               | _, _, _ => l ← number_literal s'; Some (JNumber l.1, l.2)
               end
      end
  end.

Definition JSON_parse (text : string) : option json :=
  v ← value (S (String.length text)) text;
  match skip_ws v.2 with
  | EmptyString => Some v.1
  | String _ _ => None
  end.

Definition hex4 (n : Z) : string :=
  string_of_list_ascii ((λ i, hex_digit ((n / 16 ^ (3 - Z.of_nat i)) mod 16)) <$> seq 0 4).

Fixpoint escape (s : string) : string :=
  match s with
  | EmptyString => EmptyString
  | String c r =>
      (if Ascii.eqb c dquote then String "\" (String dquote EmptyString)
       else if Ascii.eqb c "\" then "\\"
       else if code c =? 8 then "\b"
       else if code c =? 12 then "\f"
       else if code c =? 10 then "\n"
       else if code c =? 13 then "\r"
       else if code c =? 9 then "\t"
       else if code c <? 32 then "\u" +:+ hex4 (code c)
       else String c EmptyString) +:+ escape r
  end.

Definition quote (s : string) : string :=
  String dquote (escape s) +:+ String dquote EmptyString.

Fixpoint join (sep : string) (parts : list string) : string :=
  match parts with
  | [] => EmptyString
  | [x] => x
  | x :: rest => x +:+ sep +:+ join sep rest
  end.

Fixpoint JSON_stringify (v : json) : string :=
  match v with
  | JNull => "null"
  | JBool true => "true"
  | JBool false => "false"
  | JNumber literal => literal
  | JString s => quote s
  | JArray items => "[" +:+ join "," (map JSON_stringify items) +:+ "]"
  | JObject ms =>
      "{" +:+ join "," (map (λ kv, match kv with
                                   | (k, x) => quote k +:+ ":" +:+ JSON_stringify x
                                   end) ms) +:+ "}"
  end.

Definition property (name : string) (v : json) : option json :=
  match v with
  | JObject ms => snd <$> List.find (λ kv, String.eqb (fst kv) name) (reverse ms)
  | _ => None
  end.

(** Modelled from the spec: [safeJsonParse] and [safeJsonStringify] of
    @walletconnect/safe-json are missing.  The spec has the stored records
    JSON-encoded; the functions are taken to be safe as their names say:
    text that is not JSON is handed back as it is, and a string is stored
    as it is.  [topic_of] is the [topic] of a message of the declared
    types, a string property; without one the template literal reads
    [undefined]. *)
#[export] Instance safe_json : SafeJson json :=
  {| safeJsonParse := λ text, default (JString text) (JSON_parse text);
     safeJsonStringify := λ v, match v with JString s => s | _ => JSON_stringify v end;
     topic_of := λ v, match property "topic" v with
                      | Some (JString t) => t
                      | _ => "undefined"
                      end |}.

(** *** The envelope codec and the configuration *)

(** Modelled from the spec: [IridiumEncoder] of ./encoder is missing; its
    contract is that [decode] gives back the body and the flags that
    [encode] was given.  The envelope here is the flag, as one character,
    before the body. *)
#[export] Instance encoder : IridiumEncoder :=
  {| encode := λ message opts, String (if prompt opts then "1" else "0")%char message;
     decode := λ payload,
       match payload with
       | Some (String c message) =>
           if Ascii.eqb c "1" then Some (message, {| prompt := true |})
           else if Ascii.eqb c "0" then Some (message, {| prompt := false |})
           else None
       | _ => None
       end |}.

(** Modelled from the spec: the configuration of ./config is missing; the
    global maximum time to live is taken as one week. *)
#[export] Instance config : Config := {| maxTTL := 604800 |}.

End Runtime.

(** ** What the properties observe *)

Module Observe.
Import Redis RedisService.

(** The members of a topic's message set. *)
Definition stored (topic : string) (st : db) : gset string :=
  match keyspace st !! ("message:" +:+ topic) with
  | Some (VSet s) => s
  | _ => ∅
  end.

(** The hash component of a member, [member.split(":")[0]]. *)
Definition hash_of (member : string) : string :=
  default EmptyString (Js.index (Js.split ":" member) 0).

(** The set kept at a key: empty for a missing key, none for a key of
    another type. *)
Definition set_at (key : string) (st : db) : option (gset string) :=
  match keyspace st !! key with
  | None => Some ∅
  | Some (VSet s) => Some s
  | Some _ => None
  end.

(** A store that holds sets only. *)
Definition only_sets (st : db) : Prop :=
  ∀ key v, keyspace st !! key = Some v → ∃ s, v = VSet s.

(** The member [setMessage] writes for a call. *)
Definition member_of `{Digest} (p : PublishParams) : string :=
  sha256 (message p) +:+ ":" +:+ message p.

(** The list kept at a key, likewise. *)
Definition list_at (key : string) (st : db) : option (list string) :=
  match keyspace st !! key with
  | None => Some []
  | Some (VList l) => Some l
  | Some _ => None
  end.

(** The entries of the stream at a key. *)
Definition stream_at (key : string) (st : db) : option (list entry) :=
  match keyspace st !! key with
  | None => Some []
  | Some (VStream es) => Some es
  | Some _ => None
  end.

(** The store after a sequence of calls, each awaited before the next. *)
Definition after {A} (calls : list (async A)) (st : db) : db :=
  foldl (λ st call, (call st).2) st calls.

(** The calls of an awaited sequence, stopping at the first rejection. *)
Definition each {A} (f : A → async unit) (xs : list A) : async unit :=
  foldr (λ x rest, f x;; rest) (mret tt) xs.

(** Two stores that agree on the clock and on every key but one. *)
Definition same_but (key : string) (st st' : db) : Prop :=
  now st' = now st
  ∧ ∀ k, k ≠ key →
         keyspace st' !! k = keyspace st !! k ∧ expires st' !! k = expires st !! k.

(** A computation that leaves every key but one, and the clock, as they are. *)
Definition touches {A} (key : string) (m : async A) : Prop :=
  ∀ st, same_but key st (m st).2.

(** A computation that leaves the store as it is. *)
Definition reads_only {A} (m : async A) : Prop := ∀ st, (m st).2 = st.

(** The order of stream ids: by milliseconds, then by sequence. *)
Definition id_lt (a b : Z * Z) : Prop := a.1 < b.1 ∨ (a.1 = b.1 ∧ a.2 < b.2).


End Observe.

(** ** The calls that write to the store *)

Module Api.
Import Redis RedisService.

Inductive call (V : Type) :=
| SetMessage (params : PublishParams)
| DeleteMessage (topic hash : string)
| SetLegacyCached (message : V)
| GetLegacyCached (topic : string)
| SetNotification (notification : V)
| SetPendingRequest (topic : string) (id : Z) (message : string)
| DeletePendingRequest (id : Z)
| Publish (topic message : string) (opts : option IridiumV1MessageOptions).
Arguments SetMessage {V} params.
Arguments DeleteMessage {V} topic hash.
Arguments SetLegacyCached {V} message.
Arguments GetLegacyCached {V} topic.
Arguments SetNotification {V} notification.
Arguments SetPendingRequest {V} topic id message.
Arguments DeletePendingRequest {V} id.
Arguments Publish {V} topic message opts.

Section WithImports.
Context `{Digest} {V : Type} `{SafeJson V} `{IridiumEncoder} `{Config}.

(** The call as the service runs it, its result apart. *)
Definition perform (c : call V) : async unit :=
  match c with
  | SetMessage params => setMessage params
  | DeleteMessage topic hash => deleteMessage topic hash
  | SetLegacyCached message => setLegacyCached message
  | GetLegacyCached topic => getLegacyCached topic;; mret tt
  | SetNotification notification => setNotification notification
  | SetPendingRequest topic id message => setPendingRequest topic id message
  | DeletePendingRequest id => deletePendingRequest id
  | Publish topic message opts => publish topic message opts
  end.

(** The key the call names in its commands. *)
Definition key_of (c : call V) : string :=
  match c with
  | SetMessage params => "message:" +:+ topic params
  | DeleteMessage topic _ => "message:" +:+ topic
  | SetLegacyCached message => "legacy:" +:+ topic_of message
  | GetLegacyCached topic => "legacy:" +:+ topic
  | SetNotification notification => "notification:" +:+ topic_of notification
  | SetPendingRequest _ id _ => pending_key id
  | DeletePendingRequest id => pending_key id
  | Publish topic _ _ => topic
  end.

(** Whether the key of the call holds a value of the type its commands are
    for, or nothing; SET and DEL take a key of any type. *)
Definition fits (c : call V) (st : db) : bool :=
  match c, keyspace st !! key_of c with
  | _, None => true
  | (SetMessage _ | DeleteMessage _ _), Some (VSet _) => true
  | (SetLegacyCached _ | GetLegacyCached _ | SetNotification _), Some (VList _) => true
  | (SetPendingRequest _ _ _ | DeletePendingRequest _), Some _ => true
  | Publish _ _ _, Some (VStream _) => true
  | _, Some _ => false
  end.

End WithImports.
End Api.

(** ** Stores and messages the properties are run on *)

Module Scenario.
Import Redis RedisService Runtime.

(** A legacy socket message of topic ["T"] with the given payload. *)
Definition legacy (payload : string) : json :=
  JObject [("topic", JString "T"); ("type", JString "pub");
           ("payload", JString payload); ("silent", JBool true)].

(** A notification of topic ["T"]. *)
Definition notification : json :=
  JObject [("topic", JString "T"); ("webhook", JString "https://example.org")].

(** A store whose queues and message set of topic ["T"] each hold one
    record that the service did not write. *)
Definition littered : db :=
  ((lPush "legacy:T" "{bad";; lPush "notification:T" "{bad";; sAdd "message:T" "garbage")
     Redis.empty).2.

End Scenario.

(** * Properties *)

(** ** The comparator *)

Section Comparator.
Import RedisStreamID.

Lemma gt_irrefl (x : number) : gt x x = false.
Proof.
  destruct x as [|z|[]]; simpl; try reflexivity.
  apply bool_decide_eq_false. lia.
Qed.

Lemma gt_Num (x y : Z) : gt (Num x) (Num y) = true ↔ y < x.
Proof. simpl. apply bool_decide_eq_true. Qed.

Lemma isHigher_new `{Encoding} (a b : string) :
  isHigher (new a) (new b)
  = gt (timestamp (new a)) (timestamp (new b)) || gt (sequence (new a)) (sequence (new b)).
Proof.
  unfold isHigher. simpl.
  destruct (gt _ _); [reflexivity|]. destruct (gt _ _); reflexivity.
Qed.

(** C2: [a.isHigher(b)] is true exactly when a's timestamp is greater than
    b's or a's sequence is greater than b's, the two clauses being
    independent; with equal timestamps and a lower sequence it is false,
    with a lower timestamp and a higher sequence it is true. *)
Theorem isHigher_two_clause_or `{Encoding} (a b : string) :
  let this := new a in
  let id := new b in
  (isHigher this id = true
   ↔ gt (timestamp this) (timestamp id) = true ∨ gt (sequence this) (sequence id) = true)
  ∧ (∀ ta tb sa sb : Z,
        timestamp this = Num ta → sequence this = Num sa →
        timestamp id = Num tb → sequence id = Num sb →
        (isHigher this id = true ↔ tb < ta ∨ sb < sa)
        ∧ (ta = tb → sa < sb → isHigher this id = false)
        ∧ (ta < tb → sb < sa → isHigher this id = true)).
Proof.
  intros this id. subst this id. rewrite isHigher_new. split.
  - rewrite orb_true_iff. reflexivity.
  - intros ta tb sa sb -> -> -> ->.
    split; [rewrite orb_true_iff, !gt_Num; reflexivity|]. split.
    + intros -> Hs. apply orb_false_iff. split; apply bool_decide_eq_false; lia.
    + intros _ Hs. apply orb_true_iff. right. apply gt_Num, Hs.
Qed.

End Comparator.

Section ComparatorAtRuntime.
Import RedisStreamID.
#[local] Existing Instance Runtime.encoding.

(** C2 at ["5-1"], ["5-2"], ["4-7"] as [parseInt] reads them. *)
Lemma isHigher_two_clause_or_witness :
  isHigher (new "5-1") (new "5-2") = false
  ∧ isHigher (new "4-7") (new "5-2") = true
  ∧ (isHigher (new "5-2") (new "4-7") = true ↔ 4 < 5 ∨ 7 < 2).
Proof.
  pose proof (isHigher_two_clause_or "5-1" "5-2") as [_ H1].
  pose proof (isHigher_two_clause_or "4-7" "5-2") as [_ H2].
  pose proof (isHigher_two_clause_or "5-2" "4-7") as [_ H3].
  specialize (H1 5 5 1 2 eq_refl eq_refl eq_refl eq_refl) as (_ & H1 & _).
  specialize (H2 4 5 7 2 eq_refl eq_refl eq_refl eq_refl) as (_ & _ & H2).
  specialize (H3 5 4 2 7 eq_refl eq_refl eq_refl eq_refl) as (H3 & _ & _).
  split; [apply H1; [reflexivity | lia]|].
  split; [apply H2; lia|]. exact H3.
Defined.

(** C10: [isHigher] holds both ways between ["2-1"] and ["1-2"], so it is
    not asymmetric, and no id is higher than itself. *)
Theorem isHigher_not_asymmetric_but_irreflexive :
  (isHigher (new "2-1") (new "1-2") = true
   ∧ isHigher (new "1-2") (new "2-1") = true)
  ∧ ∀ (E : Encoding) (a : string), isHigher (new a) (new a) = false.
Proof.
  split; [split; reflexivity|].
  intros E a. rewrite isHigher_new, !gt_irrefl. reflexivity.
Qed.

End ComparatorAtRuntime.

(** ** The store *)

Ltac async_unfold :=
  unfold mbind, mret, Redis.async_bind, Redis.async_ret, Redis.lookup_key,
    Redis.put, Redis.remove, Redis.reject in *.

Section Store.
Import Redis.

Lemma app_colon_nonempty (a b : string) :
  ∃ c s, a +:+ ":" +:+ b = String c s.
Proof. destruct a; simpl; eauto. Qed.

Lemma set_then_expire (key val : string) (seconds : Z) (st : db) :
  0 < seconds →
  (set key val;; expire key seconds) st
  = (Resolved true,
     Db (<[key := VString val]> (keyspace st))
        (<[key := now st + seconds * 1000]> (expires st)) (now st)).
Proof.
  intros Hpos. unfold set, expire. async_unfold. simpl.
  rewrite lookup_insert_eq. destruct (decide (seconds ≤ 0)); [lia|].
  simpl. rewrite insert_delete_eq. reflexivity.
Qed.

Lemma get_string (key val : string) (st : db) :
  keyspace st !! key = Some (VString val) → get key st = (Resolved (Some val), st).
Proof. intros Hk. unfold get. async_unfold. rewrite Hk. reflexivity. Qed.

Lemma get_missing (key : string) (st : db) :
  keyspace st !! key = None → get key st = (Resolved None, st).
Proof. intros Hk. unfold get. async_unfold. rewrite Hk. reflexivity. Qed.

Lemma del_missing (key : string) (st : db) :
  keyspace st !! key = None → del key st = (Resolved 0, st).
Proof. intros Hk. unfold del. async_unfold. rewrite Hk. reflexivity. Qed.

Lemma del_resolves (key : string) (st : db) :
  ∃ n, del key st
       = (Resolved n, Db (delete key (keyspace st))
                         (match keyspace st !! key with
                          | Some _ => delete key (expires st)
                          | None => expires st
                          end)
                         (now st)).
Proof.
  unfold del. async_unfold. destruct (keyspace st !! key) eqn:Hk; simpl.
  - eexists. reflexivity.
  - exists 0. rewrite delete_id by exact Hk. destruct st; reflexivity.
Qed.

End Store.

(** ** The pending correlator *)

Section PendingCorrelator.
Import Redis RedisService.
Context `{Digest} `{Config}.

(** C7: a pending request that was set is read back as the topic, a colon
    and the digest of the body (the configured maxTTL being positive);
    after a removal the read gives the empty string; removing an id that is
    not there resolves and changes nothing. *)
Theorem pending_request_round_trip (st : db) (T : string) (id : Z) (body : string) :
  (0 < maxTTL →
   ((setPendingRequest T id body;; getPendingRequest id) st).1
   = Resolved (T +:+ ":" +:+ sha256 body))
  ∧ ((deletePendingRequest id;; getPendingRequest id) st).1 = Resolved EmptyString
  ∧ ((setPendingRequest T id body;; deletePendingRequest id;; getPendingRequest id) st).1
    = Resolved EmptyString
  ∧ (keyspace st !! pending_key id = None →
     deletePendingRequest id st = (Resolved tt, st))
  ∧ (deletePendingRequest id;; deletePendingRequest id) st = deletePendingRequest id st.
Proof.
  assert (Hset : ∀ st', ∃ st'', setPendingRequest T id body st' = (Resolved tt, st'')).
  { intros st'. unfold setPendingRequest, set, expire. async_unfold. simpl.
    rewrite lookup_insert_eq. destruct (decide (maxTTL ≤ 0)); eauto. }
  assert (Hdel : ∀ st', ∃ st'',
             deletePendingRequest id st' = (Resolved tt, st'')
             ∧ keyspace st'' !! pending_key id = None).
  { intros st'. unfold deletePendingRequest.
    destruct (del_resolves (pending_key id) st') as [n E].
    async_unfold. rewrite E. eexists. split; [reflexivity|]. simpl. apply lookup_delete_eq. }
  assert (Hget0 : ∀ st', keyspace st' !! pending_key id = None →
             getPendingRequest id st' = (Resolved EmptyString, st')).
  { intros st' Hk. unfold getPendingRequest. async_unfold.
    rewrite (get_missing _ _ Hk). reflexivity. }
  repeat split.
  - intros Hpos. unfold setPendingRequest. async_unfold.
    pose proof (set_then_expire (pending_key id) (T +:+ ":" +:+ sha256 body) maxTTL st Hpos) as E.
    async_unfold. destruct (set _ _ st) as [[[]|e] st1]; [|discriminate E].
    rewrite E. unfold getPendingRequest. async_unfold.
    rewrite (get_string _ (T +:+ ":" +:+ sha256 body)) by (simpl; apply lookup_insert_eq).
    destruct (app_colon_nonempty T (sha256 body)) as (c & s & ->). reflexivity.
  - destruct (Hdel st) as (st1 & E1 & Hk). async_unfold. rewrite E1.
    rewrite (Hget0 _ Hk). reflexivity.
  - destruct (Hset st) as (st1 & E1). destruct (Hdel st1) as (st2 & E2 & Hk).
    async_unfold. rewrite E1, E2, (Hget0 _ Hk). reflexivity.
  - intros Hk. unfold deletePendingRequest. async_unfold.
    rewrite (del_missing _ _ Hk). reflexivity.
  - destruct (Hdel st) as (st1 & E1 & Hk). async_unfold. rewrite E1.
    unfold deletePendingRequest. async_unfold. rewrite (del_missing _ _ Hk). reflexivity.
Qed.

End PendingCorrelator.

Section PendingCorrelatorAtRuntime.
Import Redis RedisService.
#[local] Existing Instance Runtime.digest.
#[local] Existing Instance Runtime.config.

(** C7 on the empty store: topic ["T"], id 42, body ["hello"]. *)
Lemma pending_request_round_trip_witness :
  ((setPendingRequest "T" 42 "hello";; getPendingRequest 42) Redis.empty).1
    = Resolved "T:2cf24dba5fb0a30e26e83b2ac5b9e29e1b161e5c1fa7425e73043362938b9824"
  ∧ ((setPendingRequest "T" 42 "hello";; deletePendingRequest 42;; getPendingRequest 42)
       Redis.empty).1 = Resolved EmptyString
  ∧ deletePendingRequest 42 Redis.empty = (Resolved tt, Redis.empty).
Proof.
  destruct (pending_request_round_trip Redis.empty "T" 42 "hello")
    as (Hget & _ & Hgone & Habsent & _).
  split; [|split].
  - rewrite Hget by reflexivity. vm_compute. reflexivity.
  - exact Hgone.
  - apply Habsent. reflexivity.
Defined.

End PendingCorrelatorAtRuntime.

(** ** The side-channel queues *)

Section Queues.
Import Redis RedisService Observe.
Context {V : Type} `{SafeJson V}.

Lemma foldl_push {A B} (f : A → B) (l : list A) (out : list B) :
  foldl (λ out x, out ++ [f x]) out l = out ++ (f <$> l).
Proof.
  revert out. induction l as [|x l IH]; intros out; simpl.
  - rewrite app_nil_r. reflexivity.
  - rewrite IH, <- app_assoc. reflexivity.
Qed.

Lemma forEach_push_fmap {A B} (f : A → B) (l : list A) : forEach_push f l = f <$> l.
Proof. unfold forEach_push. rewrite foldl_push. reflexivity. Qed.

Lemma list_at_insert (key : string) (l : list string) (st : db) (ex : gmap string Z) (t : Z) :
  list_at key (Db (<[key := VList l]> (keyspace st)) ex t) = Some l.
Proof. unfold list_at. simpl. rewrite lookup_insert_eq. reflexivity. Qed.

Lemma lPush_list (key x : string) (l : list string) (st : db) :
  list_at key st = Some l →
  lPush key x st
  = (Resolved (Z.of_nat (S (length l))),
     Db (<[key := VList (x :: l)]> (keyspace st)) (expires st) (now st)).
Proof.
  unfold list_at, lPush. async_unfold.
  destruct (keyspace st !! key) as [[]|]; intros [= <-]; reflexivity.
Qed.

Lemma expire_positive (key : string) (seconds : Z) (st : db) :
  is_Some (keyspace st !! key) → 0 < seconds →
  expire key seconds st
  = (Resolved true,
     Db (keyspace st) (<[key := now st + seconds * 1000]> (expires st)) (now st)).
Proof.
  intros [v Hk] Hpos. unfold expire. async_unfold. rewrite Hk.
  destruct (decide (seconds ≤ 0)); [lia|]. reflexivity.
Qed.

Lemma lRange_all_list (key : string) (l : list string) (st : db) :
  list_at key st = Some l → lRange key 0 (-1) st = (Resolved l, st).
Proof.
  unfold list_at, lRange. async_unfold.
  destruct (keyspace st !! key) as [[]|]; intros [= <-]; [|reflexivity].
  unfold position. repeat case_decide; try lia.
  replace (Z.to_nat (0 `max` 0)) with 0%nat by lia.
  replace (Z.to_nat _) with (length items) by lia.
  simpl drop. rewrite firstn_all. reflexivity.
Qed.

Lemma setLegacyCached_pushes (message : V) (l : list string) (st : db) :
  list_at ("legacy:" +:+ topic_of message) st = Some l →
  ∃ st', setLegacyCached message st = (Resolved tt, st')
         ∧ list_at ("legacy:" +:+ topic_of message) st' = Some (safeJsonStringify message :: l).
Proof.
  intros Hl. unfold setLegacyCached. async_unfold.
  rewrite (lPush_list _ _ _ _ Hl).
  rewrite expire_positive; [|simpl; rewrite lookup_insert_eq; eauto|reflexivity].
  eexists. split; [reflexivity|]. apply list_at_insert.
Qed.

Lemma each_setLegacyCached (T : string) (msgs : list V) (l : list string) (st : db) :
  Forall (λ m, topic_of m = T) msgs →
  list_at ("legacy:" +:+ T) st = Some l →
  ∃ st', each setLegacyCached msgs st = (Resolved tt, st')
         ∧ list_at ("legacy:" +:+ T) st' = Some (reverse (safeJsonStringify <$> msgs) ++ l).
Proof.
  intros HT. revert l st. induction HT as [|m msgs Hm _ IH]; intros l st Hl.
  - exists st. split; [reflexivity | exact Hl].
  - subst T. destruct (setLegacyCached_pushes m l st Hl) as (st1 & E1 & Hl1).
    destruct (IH _ _ Hl1) as (st2 & E2 & Hl2).
    exists st2. split.
    + simpl. async_unfold. rewrite E1. exact E2.
    + rewrite Hl2, fmap_cons, reverse_cons, <- app_assoc. reflexivity.
Qed.

Lemma getLegacyCached_drains (topic : string) (l : list string) (st : db) :
  list_at ("legacy:" +:+ topic) st = Some l →
  ∃ st', getLegacyCached topic st = (Resolved (safeJsonParse <$> l), st')
         ∧ keyspace st' !! ("legacy:" +:+ topic) = None.
Proof.
  intros Hl. unfold getLegacyCached. async_unfold.
  rewrite (lRange_all_list _ _ _ Hl), forEach_push_fmap.
  destruct (del_resolves ("legacy:" +:+ topic) st) as [n ->].
  eexists. split; [reflexivity|]. simpl. apply lookup_delete_eq.
Qed.

Lemma getLegacyCached_missing (topic : string) (st : db) :
  keyspace st !! ("legacy:" +:+ topic) = None →
  getLegacyCached topic st = (Resolved [], st).
Proof.
  intros Hk. unfold getLegacyCached, lRange. async_unfold. rewrite Hk.
  rewrite (del_missing _ _ Hk). reflexivity.
Qed.

(** C5: after the messages [msgs] were pushed to topic [T], one read
    returns each of them once, latest first (followed by what the list held
    before), and removes the list; the read after it returns nothing. *)
Theorem legacy_drain (st : db) (T : string) (msgs : list V) (l0 : list string) :
  list_at ("legacy:" +:+ T) st = Some l0 →
  Forall (λ m, topic_of m = T) msgs →
  Forall (λ m, safeJsonParse (safeJsonStringify m) = m) msgs →
  ∃ st1 st2 result,
    each setLegacyCached msgs st = (Resolved tt, st1)
    ∧ getLegacyCached T st1 = (Resolved result, st2)
    ∧ result = reverse msgs ++ (safeJsonParse <$> l0)
    ∧ (l0 = [] → result ≡ₚ msgs)
    ∧ keyspace st2 !! ("legacy:" +:+ T) = None
    ∧ getLegacyCached T st2 = (Resolved [], st2).
Proof.
  intros Hl HT Hrt.
  destruct (each_setLegacyCached T msgs l0 st HT Hl) as (st1 & E1 & Hl1).
  destruct (getLegacyCached_drains T _ st1 Hl1) as (st2 & E2 & Hk).
  assert (Hres : safeJsonParse <$> (reverse (safeJsonStringify <$> msgs) ++ l0)
                 = reverse msgs ++ (safeJsonParse <$> l0)).
  { rewrite fmap_app, fmap_reverse, <- list_fmap_compose. f_equal. f_equal.
    clear -Hrt. induction Hrt as [|m msgs Hm _ IH]; [reflexivity|].
    simpl. rewrite Hm. f_equal. exact IH. }
  exists st1, st2, (reverse msgs ++ (safeJsonParse <$> l0)).
  split; [exact E1|]. split; [rewrite E2, Hres; reflexivity|].
  split; [reflexivity|]. split.
  - intros ->. simpl. rewrite app_nil_r. apply reverse_Permutation.
  - split; [exact Hk | apply getLegacyCached_missing, Hk].
Qed.

(** C8: reading the notifications changes nothing in the store, so the
    read that follows returns the same list. *)
Theorem getNotification_reads_only (st : db) (topic : string) :
  (getNotification topic st).2 = st
  ∧ getNotification topic (getNotification topic st).2 = getNotification topic st.
Proof.
  assert (Hst : (getNotification topic st).2 = st).
  { unfold getNotification, lRange. async_unfold.
    destruct (keyspace st !! _) as [[]|]; reflexivity. }
  split; [exact Hst | rewrite Hst; reflexivity].
Qed.

(** C6, as the code has it: a batch read resolves with one element for
    every stored record, in the order of the records, whatever the record
    is: what [safeJsonParse] makes of a list item, and the second field of
    a set member, [undefined] when it has none.  No record is left out. *)
Theorem batch_reads_keep_every_record (st : db) (topic : string) :
  (∀ l, list_at ("legacy:" +:+ topic) st = Some l →
        (getLegacyCached topic st).1 = Resolved (safeJsonParse <$> l))
  ∧ (∀ l, list_at ("notification:" +:+ topic) st = Some l →
          (getNotification topic st).1 = Resolved (safeJsonParse <$> l))
  ∧ (∀ s, set_at ("message:" +:+ topic) st = Some s →
          (getMessages topic st).1
          = Resolved ((λ m, Js.index (Js.split ":" m) 1) <$> elements s)).
Proof.
  split; [|split].
  - intros l Hl. destruct (getLegacyCached_drains topic l st Hl) as (st' & -> & _).
    reflexivity.
  - intros l Hl. unfold getNotification. async_unfold.
    rewrite (lRange_all_list _ _ _ Hl), forEach_push_fmap. reflexivity.
  - intros s Hs. unfold getMessages, sMembers. async_unfold.
    unfold set_at in Hs. destruct (keyspace st !! _) as [[]|]; inversion Hs; subst;
      rewrite forEach_push_fmap, ?elements_empty; reflexivity.
Qed.

End Queues.

Section QueuesAtRuntime.
Import Redis RedisService Observe Runtime Scenario.
#[local] Existing Instance Runtime.safe_json.

(** C5 on the empty store: [a], [b] and [c] pushed in that order. *)
Lemma legacy_drain_witness :
  ∃ st1 st2,
    each setLegacyCached [legacy "a"; legacy "b"; legacy "c"] Redis.empty = (Resolved tt, st1)
    ∧ getLegacyCached "T" st1 = (Resolved [legacy "c"; legacy "b"; legacy "a"], st2)
    ∧ getLegacyCached "T" st2 = (Resolved [], st2).
Proof.
  destruct (legacy_drain Redis.empty "T" [legacy "a"; legacy "b"; legacy "c"] [])
    as (st1 & st2 & result & E1 & E2 & -> & _ & _ & E3).
  - reflexivity.
  - repeat constructor.
  - repeat constructor; vm_compute; reflexivity.
  - exists st1, st2. split; [exact E1|]. split; [exact E2 | exact E3].
Defined.

(** C6, as the code has it, on the littered store. *)
Lemma batch_reads_keep_every_record_witness :
  (getLegacyCached "T" littered).1 = Resolved [JString "{bad"]
  ∧ (getNotification "T" littered).1 = Resolved [JString "{bad"]
  ∧ (getMessages "T" littered).1 = Resolved [None].
Proof.
  destruct (batch_reads_keep_every_record littered "T") as (Hlegacy & Hnotification & Hmessages).
  split; [|split].
  - rewrite (Hlegacy ["{bad"]); reflexivity.
  - rewrite (Hnotification ["{bad"]); reflexivity.
  - rewrite (Hmessages {["garbage"]}); reflexivity.
Defined.

(** C6 as stated fails: a notification that does not parse, pushed before a
    well-formed one, is not left out of the batch, and neither is the
    member of the message set that has no second field. *)
Lemma malformed_record_is_returned :
  (getNotification "T" ((setNotification notification) littered).2).1
    = Resolved [notification; JString "{bad"]
  ∧ (getLegacyCached "T" littered).1 = Resolved [JString "{bad"]
  ∧ (getMessages "T" littered).1 = Resolved [None].
Proof. vm_compute. repeat split; reflexivity. Qed.

End QueuesAtRuntime.

(** ** The stream publisher and the stream listener *)

Section Streams.
Import Redis RedisService Observe.
Context `{IridiumEncoder}.

Lemma publish_ignores_opts (topic message : string) (opts opts' : option IridiumV1MessageOptions) :
  publish topic message opts = publish topic message opts'.
Proof. reflexivity. Qed.

Lemma xAdd_auto_stream (key : string) (fields : list (string * string))
    (es : list entry) (st : db) :
  stream_at key st = Some es →
  xAdd_auto key fields st
  = (Resolved (next_id es (now st)),
     Db (<[key := VStream (es ++ [Entry (next_id es (now st)) fields])]> (keyspace st))
        (expires st) (now st)).
Proof.
  unfold stream_at, xAdd_auto. async_unfold.
  destruct (keyspace st !! key) as [[]|]; intros [= <-]; reflexivity.
Qed.

(** What [publish] does with any [opts]: one entry is appended to the
    topic's log, its payload the body encoded with [{prompt: true}], and no
    other key changes. *)
Lemma publish_appends_one_entry (topic message : string)
    (opts : option IridiumV1MessageOptions) (es : list entry) (st : db) :
  stream_at topic st = Some es →
  ∃ id st',
    publish topic message opts st = (Resolved tt, st')
    ∧ stream_at topic st'
      = Some (es ++ [Entry id [("payload", encode message {| prompt := true |})]])
    ∧ ∀ key, key ≠ topic → keyspace st' !! key = keyspace st !! key.
Proof.
  intros Hes. unfold publish. async_unfold. rewrite (xAdd_auto_stream _ _ _ _ Hes).
  eexists _, _. split; [reflexivity|]. split.
  - unfold stream_at. simpl. rewrite lookup_insert_eq. reflexivity.
  - intros key Hne. simpl. apply lookup_insert_ne. congruence.
Qed.

(** C9, as the code has it: a started listener is one blocking read on the
    topic's log; whatever the reply, what follows emits at most once and
    returns, and no further read is issued. *)
Theorem streamListener_reads_once (topic : string) :
  ∃ k, streamListener topic = AwaitXRead topic k
       ∧ (∀ response,
             (Relay.run (k response)).2 = None
             ∧ (length (Relay.run (k response)).1 ≤ 1)%nat)
       ∧ Relay.run (k None) = ([], None)
       ∧ Relay.run (k (Some [])) = ([], None).
Proof.
  eexists. split; [reflexivity|]. simpl.
  assert (Hemit : ∀ payload,
             (Relay.run (emitWakuMessage topic payload)).2 = None
             ∧ (length (Relay.run (emitWakuMessage topic payload)).1 ≤ 1)%nat).
  { intros payload. unfold emitWakuMessage.
    destruct (decode payload) as [[message opts]|]; simpl; split; (reflexivity || lia). }
  split; [|split; reflexivity].
  intros response. destruct (decide _); [simpl; split; (reflexivity || lia) | apply Hemit].
Qed.

(** On the reply that carries an entry whose payload decodes, the listener
    emits the topic, the body and the prompt flag, once. *)
Lemma streamListener_emits (topic message : string) (opts : IridiumV1MessageOptions)
    (e : entry) (k : option (list XReadStream) → task) :
  streamListener topic = AwaitXRead topic k →
  payload_field e ≠ Some EmptyString →
  decode (payload_field e) = Some (message, opts) →
  Relay.run (k (Some [ {| xr_name := topic; xr_first := e; xr_rest := [] |} ]))
  = ([ {| nm_topic := topic; nm_message := message; nm_prompt := prompt opts |} ], None).
Proof.
  intros [= <-] Hne Hdec. simpl.
  destruct (decide _) as [E|_]; [contradiction|].
  unfold emitWakuMessage. rewrite Hdec. reflexivity.
Qed.

(** A listener started on a key that holds a stream or nothing waits. *)
Lemma on_subscribe_waits (w : Relay.world) (topic : string) (es : list entry) :
  stream_at topic (Relay.client w) = Some es →
  Relay.on_subscribe topic w
  = Relay.World (Relay.client w) (Relay.waiting w ++ [streamListener topic]) (Relay.emitted w).
Proof.
  intros Hes. unfold Relay.on_subscribe, Relay.start, stream_at in *.
  cbn [Relay.run streamListener].
  destruct (keyspace (Relay.client w) !! topic) as [[]|]; try discriminate;
    rewrite app_nil_r; reflexivity.
Qed.

(** A waiting listener is served the entry that was appended to its key. *)
Lemma wake_listener (topic message : string) (opts : IridiumV1MessageOptions)
    (es : list entry) (e : entry) (before after : db) :
  stream_at topic before = Some es →
  stream_at topic after = Some (es ++ [e]) →
  payload_field e ≠ Some EmptyString →
  decode (payload_field e) = Some (message, opts) →
  Relay.wake before after (streamListener topic)
  = ([ {| nm_topic := topic; nm_message := message; nm_prompt := prompt opts |} ], None).
Proof.
  intros Hb Ha Hne Hdec. unfold Relay.wake. cbn [streamListener].
  assert (Hdrop : drop (length (Relay.stream_entries topic before))
                    (Relay.stream_entries topic after) = [e]).
  { unfold Relay.stream_entries, stream_at in *.
    destruct (keyspace before !! topic) as [[]|]; inversion Hb; subst;
      destruct (keyspace after !! topic) as [[]|]; inversion Ha; subst;
      first [ apply drop_app_length | reflexivity | by destruct es ]. }
  rewrite Hdrop.
  apply (streamListener_emits topic message opts e _ eq_refl Hne Hdec).
Qed.

(** X1, the stream round trip: with a listener of the topic blocked in its
    read and no other, a published body is appended to the topic's log and
    emitted once, with the topic and the prompt flag set, whatever [opts]
    says; the listener is gone after it. *)
Theorem stream_round_trip (w : Relay.world) (topic message : string)
    (opts : option IridiumV1MessageOptions) (es : list entry) :
  Relay.waiting w = [] →
  stream_at topic (Relay.client w) = Some es →
  encode message {| prompt := true |} ≠ EmptyString →
  decode (Some (encode message {| prompt := true |})) = Some (message, {| prompt := true |}) →
  ∃ id,
    let w' := (Relay.exec (publish topic message opts) (Relay.on_subscribe topic w)).2 in
    Relay.emitted w'
    = Relay.emitted w ++ [ {| nm_topic := topic; nm_message := message; nm_prompt := true |} ]
    ∧ Relay.waiting w' = []
    ∧ stream_at topic (Relay.client w')
      = Some (es ++ [Entry id [("payload", encode message {| prompt := true |})]]).
Proof.
  intros Hw Hes Hne Hdec.
  rewrite (on_subscribe_waits w topic es Hes), Hw.
  destruct (publish_appends_one_entry topic message opts es (Relay.client w) Hes)
    as (id & st' & Epub & Hes' & _).
  exists id. cbv zeta. unfold Relay.exec. cbn [Relay.client Relay.waiting Relay.emitted app].
  rewrite Epub. unfold Relay.serve. cbn [Relay.client Relay.waiting Relay.emitted snd].
  cbn [fmap list_fmap].
  rewrite (wake_listener topic message {| prompt := true |} es _ _ _ Hes Hes').
  - cbn [omap list_omap fst snd concat app prompt]. auto.
  - cbn. congruence.
  - exact Hdec.
Qed.
End Streams.

Section StreamsAtRuntime.
Import Redis RedisService Observe Relay Runtime.
#[local] Existing Instance Runtime.encoder.

(** C1 at its failing input: whatever the codec, [publish] with
    [{prompt: false}] does what it does with [{prompt: true}]; with the
    codec above the body is stored in an envelope that decodes with the
    prompt flag set. *)
Lemma publish_sends_prompt_true :
  (∀ (E : IridiumEncoder) (topic message : string),
      publish topic message (Some {| prompt := false |})
      = publish topic message (Some {| prompt := true |}))
  ∧ ∃ e, stream_at "T" (publish "T" "ping" (Some {| prompt := false |}) Redis.empty).2
         = Some [e]
         ∧ payload_field e = Some (encode "ping" {| prompt := true |})
         ∧ decode (payload_field e) = Some ("ping", {| prompt := true |}).
Proof.
  split; [reflexivity|]. eexists. vm_compute. repeat split; reflexivity.
Qed.

(** C9 as stated fails: after the first message the listener of ["T"] is
    not blocked in a read any more, and the second message is never emitted. *)
Lemma streamListener_stops_after_one_message :
  let w1 := on_subscribe "T" boot in
  let w2 := (exec (publish "T" "one" None) w1).2 in
  let w3 := (exec (publish "T" "two" None) w2).2 in
  length (waiting w1) = 1%nat
  ∧ waiting w2 = []
  ∧ emitted w2 = [ {| nm_topic := "T"; nm_message := "one"; nm_prompt := true |} ]
  ∧ emitted w3 = emitted w2
  ∧ length (stream_entries "T" (client w3)) = 2%nat.
Proof. vm_compute. repeat split; reflexivity. Qed.

(** X1 on the relay as it boots: ["ping"] published to ["T"]. *)
Lemma stream_round_trip_witness :
  let w := (exec (publish "T" "ping" (Some {| prompt := false |})) (on_subscribe "T" boot)).2 in
  emitted w = [ {| nm_topic := "T"; nm_message := "ping"; nm_prompt := true |} ]
  ∧ waiting w = [].
Proof.
  destruct (stream_round_trip boot "T" "ping" (Some {| prompt := false |}) [])
    as (id & Hemitted & Hwaiting & _); try reflexivity; [discriminate|].
  split; [exact Hemitted | exact Hwaiting].
Defined.

End StreamsAtRuntime.

(** ** Strings and patterns *)

Section Strings.

Lemma append_inj_r (p a b : string) : p +:+ a = p +:+ b → a = b.
Proof. induction p as [|c p IH]; simpl; [tauto|]. intros [= E]. exact (IH E). Qed.

Lemma split_head (sep : ascii) (s : string) :
  ∃ ws, Js.split sep s = Js.before sep s :: ws.
Proof.
  induction s as [|c s [ws IH]]; simpl; [eauto|].
  destruct (Ascii.eqb c sep); [eauto|]. rewrite IH. eauto.
Qed.

Lemma before_no_sep (sep : ascii) (s : string) :
  Js.occurs sep s = false → Js.before sep s = s.
Proof.
  induction s as [|c s IH]; simpl; [reflexivity|].
  destruct (Ascii.eqb c sep); simpl; [discriminate|].
  intros Hs. rewrite IH by exact Hs. reflexivity.
Qed.

Lemma before_app (sep : ascii) (h r : string) :
  Js.occurs sep h = false → Js.before sep (h +:+ String sep r) = h.
Proof.
  induction h as [|c h IH]; simpl.
  - rewrite Ascii.eqb_refl. reflexivity.
  - destruct (Ascii.eqb c sep); simpl; [discriminate|].
    intros Hh. rewrite IH by exact Hh. reflexivity.
Qed.

(** The second field of [h:r] is [r] up to its first colon. *)
Lemma split_second (sep : ascii) (h r : string) :
  Js.occurs sep h = false →
  Js.index (Js.split sep (h +:+ String sep r)) 1 = Some (Js.before sep r).
Proof.
  induction h as [|c h IH]; simpl.
  - intros _. rewrite Ascii.eqb_refl. destruct (split_head sep r) as [ws ->]. reflexivity.
  - destruct (Ascii.eqb c sep); simpl; [discriminate|].
    intros Hh. specialize (IH Hh).
    destruct (Js.split sep (h +:+ String sep r)) as [|w ws]; [discriminate IH | exact IH].
Qed.

Lemma hash_of_member (h body : string) :
  Js.occurs ":" h = false → Observe.hash_of (h +:+ ":" +:+ body) = h.
Proof.
  intros Hh. unfold Observe.hash_of.
  destruct (split_head ":" (h +:+ ":" +:+ body)) as [ws ->]. simpl.
  apply (before_app ":" h body Hh).
Qed.

Lemma list_ascii_of_string_app (a b : string) :
  list_ascii_of_string (a +:+ b) = list_ascii_of_string a ++ list_ascii_of_string b.
Proof. induction a as [|c a IH]; simpl; [reflexivity|]. rewrite IH. reflexivity. Qed.

Lemma matches_star (s : list ascii) : Glob.matches [Glob.Star] s = true.
Proof. induction s as [|c s IH]; simpl; [reflexivity | exact IH]. Qed.

Lemma tokens_plain (c : ascii) (p : list ascii) :
  Glob.plain c = true → Glob.tokens None (c :: p) = Glob.Lit c :: Glob.tokens None p.
Proof.
  unfold Glob.plain. rewrite negb_true_iff, !orb_false_iff.
  intros [[[H1 H2] H3] H4]. simpl. rewrite H1, H2, H3, H4. reflexivity.
Qed.

(** A pattern made of plain characters and a final star matches what
    starts with these characters. *)
Lemma stringmatch_literal_star (l r : string) :
  Glob.literal l = true → Glob.stringmatch (l +:+ "*") (l +:+ r) = true.
Proof.
  unfold Glob.stringmatch. rewrite !list_ascii_of_string_app.
  induction l as [|c l IH]; simpl Glob.literal; simpl list_ascii_of_string.
  - intros _. apply matches_star.
  - rewrite andb_true_iff. intros [Hc Hl].
    rewrite <- !app_comm_cons, (tokens_plain c _ Hc). simpl.
    rewrite Ascii.eqb_refl. exact (IH Hl).
Qed.

Lemma literal_app (a b : string) :
  Glob.literal a = true → Glob.literal b = true → Glob.literal (a +:+ b) = true.
Proof.
  induction a as [|c a IH]; simpl; [tauto|].
  rewrite !andb_true_iff. intros [Hc Ha] Hb. split; [exact Hc | exact (IH Ha Hb)].
Qed.

Lemma append_assoc (a b c : string) : (a +:+ b) +:+ c = a +:+ (b +:+ c).
Proof.
  induction a as [|x a IH]; [reflexivity|].
  change (String x ((a +:+ b) +:+ c) = String x (a +:+ (b +:+ c))). rewrite IH. reflexivity.
Qed.

Lemma stringmatch_hash (h body : string) :
  Glob.literal h = true → Glob.stringmatch (h +:+ ":*") (h +:+ ":" +:+ body) = true.
Proof.
  intros Hh.
  change (h +:+ ":*") with (h +:+ (":" +:+ "*")).
  rewrite <- !append_assoc. apply stringmatch_literal_star.
  apply literal_app; [exact Hh | reflexivity].
Qed.

End Strings.

(** ** The message cache *)

Section MessageCache.
Import Redis RedisService Observe.
Context `{Digest}.

Lemma set_at_stored (T : string) (s : gset string) (st : db) :
  set_at ("message:" +:+ T) st = Some s → stored T st = s.
Proof.
  unfold set_at, stored. destruct (keyspace st !! _) as [[]|]; intros [= <-]; reflexivity.
Qed.

Lemma only_sets_set_at (key : string) (st : db) :
  only_sets st → ∃ s, set_at key st = Some s.
Proof.
  intros Hsets. unfold set_at. destruct (keyspace st !! key) as [v|] eqn:Hk; [|eauto].
  destruct (Hsets key v Hk) as [s ->]. eauto.
Qed.

(** [setMessage] on a key that holds a set or nothing. *)
Lemma setMessage_set (p : PublishParams) (s : gset string) (st : db) :
  let key := "message:" +:+ topic p in
  set_at key st = Some s →
  setMessage p st
  = (Resolved tt,
     if decide (ttl p ≤ 0)
     then Db (delete key (keyspace st)) (delete key (expires st)) (now st)
     else Db (<[key := VSet ({[member_of p]} ∪ s)]> (keyspace st))
             (<[key := now st + ttl p * 1000]> (expires st)) (now st)).
Proof.
  intros key. unfold set_at, setMessage, sAdd, expire, member_of. async_unfold. fold key.
  destruct (keyspace st !! key) as [[]|] eqn:Hk; intros [= <-]; simpl;
    rewrite lookup_insert_eq; destruct (decide (ttl p ≤ 0)); simpl;
    rewrite ?delete_insert_eq, ?union_empty_r_L; reflexivity.
Qed.

Lemma setMessage_rejected (p : PublishParams) (st : db) :
  set_at ("message:" +:+ topic p) st = None →
  setMessage p st = (Rejected WRONGTYPE, st).
Proof.
  unfold set_at, setMessage, sAdd. async_unfold.
  destruct (keyspace st !! _) as [[]|]; intros [=]; reflexivity.
Qed.

Lemma stored_setMessage_other (p : PublishParams) (T : string) (st : db) :
  T ≠ topic p → stored T (setMessage p st).2 = stored T st.
Proof.
  intros Hne.
  assert (Hkey : "message:" +:+ topic p ≠ "message:" +:+ T).
  { intros E. apply Hne. symmetry. exact (append_inj_r _ _ _ E). }
  destruct (set_at ("message:" +:+ topic p) st) as [s|] eqn:Hs.
  - rewrite (setMessage_set p s st Hs). unfold stored.
    destruct (decide (ttl p ≤ 0)); simpl.
    + rewrite lookup_delete_ne by exact Hkey. reflexivity.
    + rewrite lookup_insert_ne by exact Hkey. reflexivity.
  - rewrite (setMessage_rejected p st Hs). reflexivity.
Qed.

Lemma stored_setMessage_same (p : PublishParams) (s : gset string) (st : db) :
  set_at ("message:" +:+ topic p) st = Some s →
  stored (topic p) (setMessage p st).2
  = if decide (ttl p ≤ 0) then ∅ else {[member_of p]} ∪ s.
Proof.
  intros Hs. rewrite (setMessage_set p s st Hs). unfold stored.
  destruct (decide (ttl p ≤ 0)); simpl.
  - rewrite lookup_delete_eq. reflexivity.
  - rewrite lookup_insert_eq. reflexivity.
Qed.

Lemma only_sets_setMessage (p : PublishParams) (st : db) :
  only_sets st → only_sets (setMessage p st).2.
Proof.
  intros Hsets. destruct (only_sets_set_at ("message:" +:+ topic p) st Hsets) as [s Hs].
  rewrite (setMessage_set p s st Hs). intros key v.
  destruct (decide (ttl p ≤ 0)); simpl.
  - intros [_ Hk]%lookup_delete_Some. exact (Hsets key v Hk).
  - intros [[_ <-]|[_ Hk]]%lookup_insert_Some; [eauto | exact (Hsets key v Hk)].
Qed.

Lemma after_snoc {A} (calls : list (async A)) (call : async A) (st : db) :
  after (calls ++ [call]) st = (call (after calls st)).2.
Proof. unfold after. rewrite foldl_app. reflexivity. Qed.

(** After any sequence of [setMessage] calls on the empty store, the store
    holds sets only, and every member of a topic's set was written by one
    of the calls for that topic. *)
Lemma stored_history (history : list PublishParams) :
  let st := after (setMessage <$> history) Redis.empty in
  only_sets st
  ∧ ∀ T m, m ∈ stored T st → ∃ p, p ∈ history ∧ topic p = T ∧ m = member_of p.
Proof.
  induction history as [|p history [Hsets Hmem]] using rev_ind; cbv zeta.
  - split.
    + intros key v Hk. simpl in Hk. rewrite lookup_empty in Hk. discriminate.
    + intros T m. unfold stored. simpl. rewrite lookup_empty. set_solver.
  - rewrite fmap_app. change (setMessage <$> [p]) with [setMessage p].
    rewrite after_snoc. split; [apply only_sets_setMessage, Hsets|].
    intros T m Hm.
    assert (Hold : m ∈ stored T (after (setMessage <$> history) Redis.empty) →
                   ∃ q, q ∈ history ++ [p] ∧ topic q = T ∧ m = member_of q).
    { intros Hin. destruct (Hmem T m Hin) as (q & Hq & HT & E).
      exists q. split; [set_solver | tauto]. }
    destruct (decide (T = topic p)) as [->|Hne].
    + destruct (only_sets_set_at ("message:" +:+ topic p) _ Hsets) as [s Hs].
      rewrite (stored_setMessage_same p s _ Hs) in Hm.
      destruct (decide (ttl p ≤ 0)); [set_solver|].
      apply elem_of_union in Hm as [Hm%elem_of_singleton | Hm].
      * exists p. split; [set_solver | tauto].
      * apply Hold. rewrite (set_at_stored _ _ _ Hs). exact Hm.
    + rewrite (stored_setMessage_other p T _ Hne) in Hm. exact (Hold Hm).
Qed.

(** C4, as the code has it: after any sequence of [setMessage] calls on
    the empty store, for bodies whose digests hold no colon and do not
    collide, a topic's set has at most one member for a hash; and when the
    last two calls store the same body under the same topic, the second
    with a positive ttl, exactly one member carries the digest of that
    body. *)
Theorem setMessage_dedup (history : list PublishParams) :
  let st := after (setMessage <$> history) Redis.empty in
  (∀ p, p ∈ history → Js.occurs ":" (sha256 (message p)) = false) →
  (∀ p q, p ∈ history → q ∈ history →
          sha256 (message p) = sha256 (message q) → message p = message q) →
  (∀ T m1 m2, m1 ∈ stored T st → m2 ∈ stored T st → hash_of m1 = hash_of m2 → m1 = m2)
  ∧ (∀ earlier T B ttl1 ttl2,
        history = earlier ++ [ {| topic := T; message := B; ttl := ttl1 |};
                               {| topic := T; message := B; ttl := ttl2 |} ] →
        0 < ttl2 →
        ∀ m, m ∈ stored T st ∧ hash_of m = sha256 B ↔ m = sha256 B +:+ ":" +:+ B).
Proof.
  intros st Hcolon Hfree.
  assert (Hone : ∀ T m1 m2, m1 ∈ stored T st → m2 ∈ stored T st →
                            hash_of m1 = hash_of m2 → m1 = m2).
  { intros T m1 m2 H1 H2 Hh.
    destruct (stored_history history) as [_ Hmem].
    destruct (Hmem T m1 H1) as (p & Hp & _ & ->).
    destruct (Hmem T m2 H2) as (q & Hq & _ & ->).
    unfold member_of in *.
    rewrite !hash_of_member in Hh by auto.
    rewrite Hh, (Hfree p q Hp Hq Hh). reflexivity. }
  split; [exact Hone|].
  intros earlier T B ttl1 ttl2 Hhist Hpos m.
  set (p1 := {| topic := T; message := B; ttl := ttl1 |}) in *.
  set (p2 := {| topic := T; message := B; ttl := ttl2 |}) in *.
  assert (Hin : member_of p2 ∈ stored T st).
  { subst st. rewrite Hhist. change [p1; p2] with ([p1] ++ [p2]).
    rewrite (assoc_L (++)), fmap_app. change (setMessage <$> [p2]) with [setMessage p2].
    rewrite after_snoc.
    destruct (stored_history (earlier ++ [p1])) as [Hsets _].
    destruct (only_sets_set_at ("message:" +:+ topic p2) _ Hsets) as [s Hs].
    change T with (topic p2) at 1. rewrite (stored_setMessage_same p2 s _ Hs).
    destruct (decide (ttl p2 ≤ 0)) as [Hle|_]; [simpl in Hle; lia | set_solver]. }
  assert (Hhash : hash_of (member_of p2) = sha256 B).
  { apply hash_of_member. apply (Hcolon p2). rewrite Hhist. set_solver. }
  change (sha256 B +:+ ":" +:+ B) with (member_of p2). split.
  - intros [Hm Hh]. apply (Hone T); [exact Hm | exact Hin | congruence].
  - intros ->. split; [exact Hin | exact Hhash].
Qed.

Lemma sScanIterator_set (key pattern : string) (s : gset string) (st : db) :
  set_at key st = Some s →
  sScanIterator key pattern st
  = (Resolved (List.filter (Glob.stringmatch pattern) (elements s)), st).
Proof.
  unfold set_at, sScanIterator, sMembers. async_unfold.
  destruct (keyspace st !! key) as [[]|]; intros [= <-]; [reflexivity|].
  rewrite elements_empty. reflexivity.
Qed.

Lemma filter_head_unique {A} (f : A → bool) (v : A) (l : list A) :
  (∀ x, x ∈ l → f x = true → x = v) → v ∈ l → f v = true →
  ∃ rest, List.filter f l = v :: rest.
Proof.
  induction l as [|x l IH]; intros Honly Hin Hv; [set_solver|].
  simpl. destruct (f x) eqn:Hx.
  - rewrite (Honly x); [eauto | left | exact Hx].
  - apply IH; [intros y Hy; apply Honly; right; exact Hy | | exact Hv].
    apply elem_of_cons in Hin. destruct Hin as [E|Hin']; [congruence | exact Hin'].
Qed.

(** X2: what [getMessage] gives back for a body just stored with a
    positive ttl, when no other member of the set matches the pattern of
    its hash: the body up to its first colon, so the body itself when it
    has none. *)
Theorem getMessage_after_setMessage (st : db) (T body : string) (seconds : Z) (s : gset string) :
  set_at ("message:" +:+ T) st = Some s →
  0 < seconds →
  Js.occurs ":" (sha256 body) = false →
  Glob.literal (sha256 body) = true →
  (∀ m, m ∈ s → Glob.stringmatch (sha256 body +:+ ":*") m = true →
        m = sha256 body +:+ ":" +:+ body) →
  ((setMessage {| topic := T; message := body; ttl := seconds |};;
    getMessage T (sha256 body)) st).1 = Resolved (Some (Js.before ":" body))
  ∧ (Js.occurs ":" body = false →
     ((setMessage {| topic := T; message := body; ttl := seconds |};;
       getMessage T (sha256 body)) st).1 = Resolved (Some body)).
Proof.
  intros Hs Hpos Hcolon Hlit Honly.
  set (p := {| topic := T; message := body; ttl := seconds |}).
  assert (Hget : ((setMessage p;; getMessage T (sha256 body)) st).1
                 = Resolved (Some (Js.before ":" body))).
  { async_unfold. rewrite (setMessage_set p s st Hs).
    destruct (decide (ttl p ≤ 0)) as [Hle|_]; [simpl in Hle; lia|].
    unfold getMessage. async_unfold. erewrite sScanIterator_set; cycle 1.
    { unfold set_at. simpl. rewrite lookup_insert_eq. reflexivity. }
    destruct (filter_head_unique (Glob.stringmatch (sha256 body +:+ ":*"))
                (member_of p) (elements ({[member_of p]} ∪ s))) as [rest ->].
    - intros m Hm Hmatch. apply elem_of_elements, elem_of_union in Hm as [Hm|Hm].
      + apply elem_of_singleton in Hm. exact Hm.
      + exact (Honly m Hm Hmatch).
    - apply elem_of_elements. set_solver.
    - apply stringmatch_hash, Hlit.
    - simpl. f_equal. exact (split_second ":" (sha256 body) body Hcolon). }
  split; [exact Hget|]. intros Hbody. rewrite Hget, before_no_sep by exact Hbody.
  reflexivity.
Qed.

(** Without a member that matches the pattern of [hash], [getMessage]
    resolves with [undefined]. *)
Lemma getMessage_not_found (st : db) (T hash : string) (s : gset string) :
  set_at ("message:" +:+ T) st = Some s →
  (∀ m, m ∈ s → Glob.stringmatch (hash +:+ ":*") m = false) →
  getMessage T hash st = (Resolved None, st).
Proof.
  intros Hs Hnone. unfold getMessage. async_unfold.
  rewrite (sScanIterator_set _ _ s st Hs).
  destruct (List.filter _ _) as [|m rest] eqn:Hf; [reflexivity|].
  assert (Hm : In m (List.filter (Glob.stringmatch (hash +:+ ":*")) (elements s)))
    by (rewrite Hf; left; reflexivity).
  apply filter_In in Hm as [Hin Hmatch].
  apply list_elem_of_In, elem_of_elements in Hin.
  rewrite (Hnone m Hin) in Hmatch. discriminate.
Qed.

(** X3: storing a message restarts the expiry of the topic's whole set:
    its members, the earlier ones included, stay for the new ttl and are
    gone after it. *)
Theorem setMessage_resets_expiry (p : PublishParams) (s : gset string) (st : db) (ms : Z) :
  set_at ("message:" +:+ topic p) st = Some s →
  0 < ttl p →
  (ms ≤ ttl p * 1000 →
   stored (topic p) (advance ms (setMessage p st).2) = {[member_of p]} ∪ s)
  ∧ (ttl p * 1000 < ms → stored (topic p) (advance ms (setMessage p st).2) = ∅).
Proof.
  intros Hs Hpos. rewrite (setMessage_set p s st Hs).
  destruct (decide (ttl p ≤ 0)) as [Hle|_]; [lia|].
  unfold stored, advance. cbn [keyspace expires now fst snd]. split; intros Hms.
  - match goal with |- context [filter ?P ?m !! ?k] =>
      assert (E : filter P m !! k = Some (VSet ({[member_of p]} ∪ s)))
    end.
    { apply map_lookup_filter_Some_2; [apply lookup_insert_eq|].
      unfold live. cbn [fst]. rewrite lookup_insert_eq. apply bool_decide_eq_true. lia. }
    rewrite E. reflexivity.
  - rewrite map_lookup_filter_None_2; [reflexivity|].
    right. intros v Hv. unfold live. cbn [fst]. rewrite lookup_insert_eq.
    rewrite bool_decide_eq_false_2 by lia. discriminate.
Qed.

End MessageCache.

Section MessageCacheAtRuntime.
Import Redis RedisService Observe.
#[local] Existing Instance Runtime.digest.

(** C4, as the code has it, on the body ["B"] stored twice under ["T"]. *)
Lemma setMessage_dedup_witness :
  let B := {| topic := "T"; message := "B"; ttl := 60 |} in
  let B' := {| topic := "T"; message := "B"; ttl := 30 |} in
  let st := after (setMessage <$> [B; B']) Redis.empty in
  (sha256 "B" +:+ ":B" ∈ stored "T" st ∧ hash_of (sha256 "B" +:+ ":B") = sha256 "B")
  ∧ ∀ m, m ∈ stored "T" st ∧ hash_of m = sha256 "B" ↔ m = sha256 "B" +:+ ":B".
Proof.
  intros B B' st.
  cut (∀ m, m ∈ stored "T" st ∧ hash_of m = sha256 "B" ↔ m = sha256 "B" +:+ ":B").
  { intros Hiff. split; [apply Hiff; reflexivity | exact Hiff]. }
  assert (Hcolon : ∀ p, p ∈ [B; B'] → Js.occurs ":" (sha256 (message p)) = false).
  { intros p Hp. repeat (apply elem_of_cons in Hp as [->|Hp]); [vm_compute; reflexivity..|].
    inversion Hp. }
  assert (Hfree : ∀ p q, p ∈ [B; B'] → q ∈ [B; B'] →
                         sha256 (message p) = sha256 (message q) → message p = message q).
  { intros p q Hp Hq _.
    repeat (apply elem_of_cons in Hp as [->|Hp]); try (inversion Hp; fail);
    repeat (apply elem_of_cons in Hq as [->|Hq]); try (inversion Hq; fail); reflexivity. }
  destruct (setMessage_dedup [B; B'] Hcolon Hfree) as [_ Htwice].
  apply (Htwice [] "T" "B" 60 30); [reflexivity | lia].
Defined.

(** C4 as stated fails: stored a second time with ttl 0, the body leaves
    no member at all in the topic's set. *)
Lemma setMessage_twice_ttl_zero :
  let st := after (setMessage <$> [ {| topic := "T"; message := "B"; ttl := 60 |};
                                     {| topic := "T"; message := "B"; ttl := 0 |} ])
                  Redis.empty in
  stored "T" st = ∅ ∧ keyspace st = ∅.
Proof. vm_compute. split; reflexivity. Qed.

(** C3 at its failing input: the body ["a:b"], stored and looked up by its
    digest, comes back as ["a"]. *)
Lemma getMessage_truncates_at_colon :
  ((setMessage {| topic := "T"; message := "a:b"; ttl := 60 |};;
    getMessage "T" (sha256 "a:b")) Redis.empty).1 = Resolved (Some "a")
  ∧ ((setMessage {| topic := "T"; message := "ab"; ttl := 60 |};;
      getMessage "T" (sha256 "ab")) Redis.empty).1 = Resolved (Some "ab").
Proof. vm_compute. split; reflexivity. Qed.

(** X2 on the empty store: the body ["ab"] under ["T"]. *)
Lemma getMessage_after_setMessage_witness :
  ((setMessage {| topic := "T"; message := "ab"; ttl := 60 |};;
    getMessage "T" (sha256 "ab")) Redis.empty).1 = Resolved (Some "ab").
Proof.
  destruct (getMessage_after_setMessage Redis.empty "T" "ab" 60 ∅) as [_ Hbody].
  - reflexivity.
  - lia.
  - vm_compute. reflexivity.
  - vm_compute. reflexivity.
  - intros m Hm. exfalso. exact (not_elem_of_empty m Hm).
  - apply Hbody. reflexivity.
Defined.

(** X3 on the empty store: a set stored for a minute is there after a
    minute and gone a millisecond later. *)
Lemma setMessage_resets_expiry_witness :
  let st := (setMessage {| topic := "T"; message := "ab"; ttl := 60 |} Redis.empty).2 in
  stored "T" (advance 60000 st) = {[ sha256 "ab" +:+ ":ab" ]}
  ∧ stored "T" (advance 60001 st) = ∅.
Proof.
  intros st. subst st.
  destruct (setMessage_resets_expiry {| topic := "T"; message := "ab"; ttl := 60 |}
              ∅ Redis.empty 60000) as [Hlive _]; [reflexivity | simpl; lia |].
  destruct (setMessage_resets_expiry {| topic := "T"; message := "ab"; ttl := 60 |}
              ∅ Redis.empty 60001) as [_ Hgone]; [reflexivity | simpl; lia |].
  split.
  - etrans; [apply Hlive; simpl; lia|]. rewrite union_empty_r_L. reflexivity.
  - apply Hgone. simpl. lia.
Defined.

End MessageCacheAtRuntime.

(** * More of the service *)

(** ** What a call changes *)

Section Frames.
Import Redis RedisService Observe.

Lemma same_but_refl (key : string) (st : db) : same_but key st st.
Proof. split; [reflexivity | intros k _; split; reflexivity]. Qed.

Lemma same_but_trans (key : string) (st1 st2 st3 : db) :
  same_but key st1 st2 → same_but key st2 st3 → same_but key st1 st3.
Proof.
  intros [Hn1 H1] [Hn2 H2]. split; [congruence|].
  intros k Hk. destruct (H1 k Hk), (H2 k Hk). split; congruence.
Qed.

Lemma bind_resolved {A B} (m : async A) (k : A → async B) (a : A) (st st' : db) :
  m st = (Resolved a, st') → (m ≫= k) st = k a st'.
Proof. intros E. async_unfold. rewrite E. reflexivity. Qed.

Lemma bind_rejected {A B} (m : async A) (k : A → async B) (e : error) (st st' : db) :
  m st = (Rejected e, st') → (m ≫= k) st = (Rejected e, st').
Proof. intros E. async_unfold. rewrite E. reflexivity. Qed.

Lemma touches_ret {A} (key : string) (a : A) : touches key (mret a).
Proof. intros st. apply same_but_refl. Qed.

Lemma touches_bind {A B} (key : string) (m : async A) (k : A → async B) :
  touches key m → (∀ a, touches key (k a)) → touches key (m ≫= k).
Proof.
  intros Hm Hk st. specialize (Hm st). async_unfold.
  destruct (m st) as [[a|e] st1]; [|exact Hm].
  exact (same_but_trans key st st1 _ Hm (Hk a st1)).
Qed.

Lemma touches_reads {A} (key : string) (m : async A) : reads_only m → touches key m.
Proof. intros Hm st. rewrite Hm. apply same_but_refl. Qed.

Lemma touches_put (key : string) (v : value) : touches key (put key v).
Proof.
  intros st. split; [reflexivity|]. intros k Hk. simpl.
  rewrite lookup_insert_ne by congruence. split; reflexivity.
Qed.

Lemma touches_remove (key : string) : touches key (remove key).
Proof.
  intros st. split; [reflexivity|]. intros k Hk. simpl.
  rewrite !lookup_delete_ne by congruence. split; reflexivity.
Qed.

Lemma reads_only_lookup_key (key : string) : reads_only (lookup_key key).
Proof. intros st. reflexivity. Qed.

Lemma reads_only_reject {A} (e : error) : reads_only (reject (A := A) e).
Proof. intros st. reflexivity. Qed.

Lemma reads_only_ret {A} (a : A) : reads_only (mret a : async A).
Proof. intros st. reflexivity. Qed.

Lemma reads_only_bind {A B} (m : async A) (k : A → async B) :
  reads_only m → (∀ a, reads_only (k a)) → reads_only (m ≫= k).
Proof.
  intros Hm Hk st. specialize (Hm st). async_unfold.
  destruct (m st) as [[a|e] st1]; simpl in Hm; subst st1; [apply Hk | reflexivity].
Qed.

Ltac frame_step :=
  match goal with
  | |- touches _ (mret _) => apply touches_ret
  | |- touches _ (mbind _ _) => apply touches_bind; [|let v := fresh "v" in intros v]
  | |- touches _ (put _ _) => apply touches_put
  | |- touches _ (remove _) => apply touches_remove
  | |- touches _ (lookup_key _) => apply touches_reads, reads_only_lookup_key
  | |- touches _ (reject _) => apply touches_reads, reads_only_reject
  | |- touches _ (match ?x with _ => _ end) => destruct x
  | |- reads_only (mret _) => apply reads_only_ret
  | |- reads_only (mbind _ _) => apply reads_only_bind; [|let v := fresh "v" in intros v]
  | |- reads_only (lookup_key _) => apply reads_only_lookup_key
  | |- reads_only (reject _) => apply reads_only_reject
  | |- reads_only (match ?x with _ => _ end) => destruct x
  end.

Lemma touches_sAdd (key member : string) : touches key (sAdd key member).
Proof. unfold sAdd. repeat frame_step. Qed.

Lemma touches_sRem (key member : string) : touches key (sRem key member).
Proof. unfold sRem. repeat frame_step. Qed.

Lemma touches_lPush (key element : string) : touches key (lPush key element).
Proof. unfold lPush. repeat frame_step. Qed.

Lemma touches_del (key : string) : touches key (del key).
Proof. unfold del. repeat frame_step. Qed.

Lemma touches_set (key val : string) : touches key (set key val).
Proof.
  intros st. split; [reflexivity|]. intros k Hk. simpl.
  rewrite lookup_insert_ne, lookup_delete_ne by congruence. split; reflexivity.
Qed.

Lemma touches_expire (key : string) (seconds : Z) : touches key (expire key seconds).
Proof.
  unfold expire. repeat frame_step.
  intros st. split; [reflexivity|]. intros k Hk. simpl.
  rewrite lookup_insert_ne by congruence. split; reflexivity.
Qed.

Lemma touches_xAdd_auto (key : string) (fields : list (string * string)) :
  touches key (xAdd_auto key fields).
Proof.
  unfold xAdd_auto. repeat frame_step.
  all: intros st; exact (touches_bind key _ _ (touches_put key _)
                           (λ _, touches_ret key _) st).
Qed.

Lemma reads_only_sMembers (key : string) : reads_only (sMembers key).
Proof. unfold sMembers. repeat frame_step. Qed.

Lemma reads_only_sScanIterator (key pattern : string) :
  reads_only (sScanIterator key pattern).
Proof. unfold sScanIterator. repeat frame_step. apply reads_only_sMembers. Qed.

Lemma reads_only_lRange (key : string) (start stop : Z) : reads_only (lRange key start stop).
Proof. unfold lRange. repeat frame_step. Qed.

Lemma reads_only_get (key : string) : reads_only (get key).
Proof. unfold get. repeat frame_step. Qed.

Lemma sRem_set (key member : string) (s : gset string) (st : db) :
  set_at key st = Some s →
  ∃ n st', sRem key member st = (Resolved n, st')
           ∧ set_at key st' = Some (s ∖ {[member]}).
Proof.
  unfold set_at, sRem. async_unfold.
  destruct (keyspace st !! key) as [[]|] eqn:Hk; intros [= <-].
  - destruct (decide (members ∖ {[member]} = ∅)) as [E|E]; simpl.
    + eexists _, _. split; [reflexivity|]. simpl.
      rewrite lookup_delete_eq, E. reflexivity.
    + eexists _, _. split; [reflexivity|]. simpl.
      rewrite lookup_insert_eq. reflexivity.
  - eexists _, _. split; [reflexivity|]. rewrite Hk, empty_difference_L. reflexivity.
Qed.

(** The loop of [deleteMessage] over the members it was given. *)
Lemma sRem_each (key : string) (members : list string) (s : gset string) (st : db) :
  set_at key st = Some s →
  ∃ st', foldr (λ member rest, sRem key member;; rest) (mret tt) members st
         = (Resolved tt, st')
         ∧ set_at key st' = Some (s ∖ list_to_set members).
Proof.
  revert s st. induction members as [|m members IH]; intros s st Hs.
  - exists st. split; [reflexivity|]. rewrite Hs, list_to_set_nil, difference_empty_L.
    reflexivity.
  - destruct (sRem_set key m s st Hs) as (n & st1 & E1 & Hs1).
    destruct (IH _ _ Hs1) as (st2 & E2 & Hs2).
    exists st2. split.
    + simpl. async_unfold. rewrite E1. exact E2.
    + rewrite Hs2, list_to_set_cons, difference_difference_l_L. reflexivity.
Qed.

Lemma touches_sRem_each (key : string) (members : list string) :
  touches key (foldr (λ member rest, sRem key member;; rest) (mret tt) members).
Proof.
  induction members as [|m members IH]; simpl; [apply touches_ret|].
  apply touches_bind; [apply touches_sRem | intros _; exact IH].
Qed.

End Frames.

(** ** Every call: the key it changes, and when it is rejected *)

Ltac same_result H :=
  simpl in H; try discriminate H; try (injection H as ->);
  repeat match goal with e : Redis.error |- _ => destruct e end.

Section Calls.
Import Redis RedisService Observe Api.
Context `{Digest} {V : Type} `{SafeJson V} `{IridiumEncoder} `{Config}.

Lemma perform_touches (c : call V) : touches (key_of c) (perform c).
Proof.
  destruct c as [p|T h|m|T|n|T id b|id|T b o]; simpl.
  - unfold setMessage. apply touches_bind; [apply touches_sAdd | intros _].
    apply touches_bind; [apply touches_expire | intros _; apply touches_ret].
  - unfold deleteMessage.
    apply touches_bind; [apply touches_reads, reads_only_sScanIterator | intros members].
    apply touches_sRem_each.
  - unfold setLegacyCached. apply touches_bind; [apply touches_lPush | intros _].
    apply touches_bind; [apply touches_expire | intros _; apply touches_ret].
  - unfold getLegacyCached. apply touches_bind; [|intros _; apply touches_ret].
    apply touches_bind; [apply touches_reads, reads_only_lRange | intros result].
    apply touches_bind; [apply touches_del | intros _; apply touches_ret].
  - unfold setNotification.
    apply touches_bind; [apply touches_lPush | intros _; apply touches_ret].
  - unfold setPendingRequest. apply touches_bind; [apply touches_set | intros _].
    apply touches_bind; [apply touches_expire | intros _; apply touches_ret].
  - unfold deletePendingRequest.
    apply touches_bind; [apply touches_del | intros _; apply touches_ret].
  - unfold publish.
    apply touches_bind; [apply touches_xAdd_auto | intros _; apply touches_ret].
Qed.

(** X4: a call changes the one key it names: every other key keeps its
    value and its deadline, and the clock is not moved. *)
Theorem calls_leave_the_other_keys (c : call V) (st : db) (k : string) :
  k ≠ key_of c →
  keyspace (perform c st).2 !! k = keyspace st !! k
  ∧ expires (perform c st).2 !! k = expires st !! k
  ∧ now (perform c st).2 = now st.
Proof.
  intros Hk. destruct (perform_touches c st) as [Hnow Hother].
  destruct (Hother k Hk) as [Hkeys Hexpires]. auto.
Qed.

Lemma expire_resolves (key : string) (seconds : Z) (st : db) :
  ∃ b st', expire key seconds st = (Resolved b, st').
Proof.
  unfold expire. async_unfold.
  destruct (keyspace st !! key); [destruct (decide _)|]; eauto.
Qed.

(** X5: a call is resolved when its key holds nothing or a value of the
    type of its commands; on a key of another type it is rejected with
    WRONGTYPE and the store is left as it was.  Setting and deleting a
    pending request are never rejected. *)
Theorem calls_resolve_or_are_rejected (c : call V) (st : db) :
  if fits c st then ∃ st', perform c st = (Resolved tt, st')
  else perform c st = (Rejected WRONGTYPE, st).
Proof.
  destruct c as [p|T h|m|T|n|T id b|id|T b o]; unfold fits; simpl key_of; simpl perform.
  - destruct (set_at ("message:" +:+ topic p) st) as [s|] eqn:Hs.
    + rewrite (setMessage_set p s st Hs). unfold set_at in Hs.
      destruct (keyspace st !! _) as [[]|]; try discriminate; eauto.
    + rewrite (setMessage_rejected p st Hs). unfold set_at in Hs.
      destruct (keyspace st !! _) as [[]|]; try discriminate; reflexivity.
  - unfold deleteMessage.
    destruct (set_at ("message:" +:+ T) st) as [s|] eqn:Hs.
    + rewrite (bind_resolved _ _ _ _ _ (sScanIterator_set _ (h +:+ ":*") s st Hs)).
      destruct (sRem_each ("message:" +:+ T)
                  (List.filter (Glob.stringmatch (h +:+ ":*")) (elements s)) s st Hs)
        as (st' & E & _).
      rewrite E. unfold set_at in Hs.
      destruct (keyspace st !! _) as [[]|]; try discriminate; eauto.
    + unfold set_at in Hs. unfold sScanIterator, sMembers. async_unfold.
      destruct (keyspace st !! _) as [[]|]; try discriminate; reflexivity.
  - unfold setLegacyCached, lPush. async_unfold.
    destruct (keyspace st !! _) as [[]|] eqn:Hk; simpl; try reflexivity;
      match goal with |- context [expire ?k ?t ?s] =>
        destruct (expire_resolves k t s) as (b & st' & ->) end; eauto.
  - unfold getLegacyCached, lRange. async_unfold.
    destruct (keyspace st !! _) as [[]|] eqn:Hk; simpl; try reflexivity;
      match goal with |- context [del ?k ?s] =>
        destruct (del_resolves k s) as (b & ->) end; eauto.
  - unfold setNotification, lPush. async_unfold.
    destruct (keyspace st !! _) as [[]|]; simpl; eauto.
  - assert (Hset : ∃ st', setPendingRequest T id b st = (Resolved tt, st')).
    { unfold setPendingRequest, set. async_unfold.
      match goal with |- context [expire ?k ?t ?s] =>
        destruct (expire_resolves k t s) as (r & st' & ->) end. eauto. }
    destruct (keyspace st !! _) as [[]|]; exact Hset.
  - assert (Hdel : ∃ st', deletePendingRequest id st = (Resolved tt, st')).
    { unfold deletePendingRequest. async_unfold.
      destruct (del_resolves (pending_key id) st) as (r & ->). eauto. }
    destruct (keyspace st !! _) as [[]|]; exact Hdel.
  - unfold publish, xAdd_auto. async_unfold.
    destruct (keyspace st !! _) as [[]|]; simpl; eauto.
Qed.

Lemma read_depends_on_key (key : string) (st st' : db) :
  keyspace st' !! key = keyspace st !! key →
  (∀ pattern, (sScanIterator key pattern st').1 = (sScanIterator key pattern st).1)
  ∧ (sMembers key st').1 = (sMembers key st).1
  ∧ (∀ start stop, (lRange key start stop st').1 = (lRange key start stop st).1)
  ∧ (get key st').1 = (get key st).1.
Proof.
  intros Hk. unfold sScanIterator, sMembers, lRange, get. async_unfold. rewrite Hk.
  repeat split; intros; destruct (keyspace st !! key) as [[]|]; reflexivity.
Qed.

(** X6: a call does not change what the reads of the other keys return:
    the messages of a topic, its notifications, its legacy messages and a
    pending request are read as before the call when their key is not the
    one the call names. *)
Theorem reads_are_not_disturbed (c : call V) (st : db) :
  let st' := (perform c st).2 in
  (∀ T, key_of c ≠ "message:" +:+ T →
        (getMessages T st').1 = (getMessages T st).1
        ∧ ∀ hash, (getMessage T hash st').1 = (getMessage T hash st).1)
  ∧ (∀ T, key_of c ≠ "notification:" +:+ T →
          (getNotification T st').1 = (getNotification T st).1)
  ∧ (∀ T, key_of c ≠ "legacy:" +:+ T →
          (getLegacyCached T st').1 = (getLegacyCached T st).1)
  ∧ (∀ id, key_of c ≠ pending_key id →
           (getPendingRequest id st').1 = (getPendingRequest id st).1).
Proof.
  intros st'.
  assert (Hsame : ∀ k, key_of c ≠ k → keyspace st' !! k = keyspace st !! k).
  { intros k Hk. destruct (perform_touches c st) as [_ Hother].
    apply Hother. congruence. }
  split; [|split; [|split]].
  - intros T HT.
    destruct (read_depends_on_key _ st st' (Hsame _ HT)) as (Hscan & Hmembers & _).
    split.
    + unfold getMessages. async_unfold.
      destruct (sMembers _ st') as [[r'|e'] s1], (sMembers _ st) as [[r|e] s2];
        same_result Hmembers; reflexivity.
    + intros hash. specialize (Hscan (hash +:+ ":*")). unfold getMessage. async_unfold.
      destruct (sScanIterator _ _ st') as [[r'|e'] s1], (sScanIterator _ _ st) as [[r|e] s2];
        same_result Hscan; [destruct r|]; reflexivity.
  - intros T HT. destruct (read_depends_on_key _ st st' (Hsame _ HT)) as (_ & _ & Hrange & _).
    specialize (Hrange 0 (-1)). unfold getNotification. async_unfold.
    destruct (lRange _ _ _ st') as [[r'|e'] s1], (lRange _ _ _ st) as [[r|e] s2];
      same_result Hrange; reflexivity.
  - intros T HT. destruct (read_depends_on_key _ st st' (Hsame _ HT)) as (_ & _ & Hrange & _).
    specialize (Hrange 0 (-1)). unfold getLegacyCached. async_unfold.
    destruct (lRange _ _ _ st') as [[r'|e'] s1], (lRange _ _ _ st) as [[r|e] s2];
      same_result Hrange; [|reflexivity].
    destruct (del_resolves ("legacy:" +:+ T) s1) as [n1 ->].
    destruct (del_resolves ("legacy:" +:+ T) s2) as [n2 ->]. reflexivity.
  - intros id Hid. destruct (read_depends_on_key _ st st' (Hsame _ Hid)) as (_ & _ & _ & Hget).
    unfold getPendingRequest. async_unfold.
    destruct (get _ st') as [[r'|e'] s1], (get _ st) as [[r|e] s2];
      same_result Hget; reflexivity.
Qed.

End Calls.

(** ** Deleting and listing messages *)

Section MessageCacheMore.
Import Redis RedisService Observe.
Context `{Digest}.

Lemma difference_matching (pattern : string) (s : gset string) :
  s ∖ list_to_set (List.filter (Glob.stringmatch pattern) (elements s))
  = filter (λ m, Glob.stringmatch pattern m = false) s.
Proof.
  apply set_eq. intros m.
  rewrite elem_of_difference, elem_of_filter, elem_of_list_to_set, list_elem_of_In,
    filter_In, <- list_elem_of_In, elem_of_elements.
  destruct (Glob.stringmatch pattern m); split.
  - intros [Hm Hno]. exfalso. apply Hno. split; [exact Hm | reflexivity].
  - intros [[=] _].
  - intros [Hm _]. split; [reflexivity | exact Hm].
  - intros [_ Hm]. split; [exact Hm|]. intros [_ [=]].
Qed.

(** X7: [deleteMessage] removes the members that match the pattern of the
    hash and keeps the others; after it [getMessage] finds nothing for
    that hash. *)
Theorem deleteMessage_removes_matching (st : db) (T hash : string) (s : gset string) :
  set_at ("message:" +:+ T) st = Some s →
  ∃ st', deleteMessage T hash st = (Resolved tt, st')
         ∧ stored T st' = filter (λ m, Glob.stringmatch (hash +:+ ":*") m = false) s
         ∧ getMessage T hash st' = (Resolved None, st').
Proof.
  intros Hs. unfold deleteMessage.
  rewrite (bind_resolved _ _ _ _ _ (sScanIterator_set _ (hash +:+ ":*") s st Hs)).
  destruct (sRem_each ("message:" +:+ T)
              (List.filter (Glob.stringmatch (hash +:+ ":*")) (elements s)) s st Hs)
    as (st' & E & Hs').
  rewrite difference_matching in Hs'.
  exists st'. split; [exact E|]. split; [exact (set_at_stored T _ st' Hs')|].
  apply (getMessage_not_found st' T hash _ Hs').
  intros m [Hm _]%elem_of_filter. exact Hm.
Qed.

(** X8: [getMessages] resolves with one element for each member of the
    topic's set, none for a missing key; after [setMessage] with a positive
    ttl, the body just stored is among them, up to its first colon. *)
Theorem getMessages_after_setMessage (st : db) (p : PublishParams) (s : gset string) :
  set_at ("message:" +:+ topic p) st = Some s →
  (∃ bodies, getMessages (topic p) st = (Resolved bodies, st) ∧ length bodies = size s)
  ∧ (0 < ttl p →
     Js.occurs ":" (sha256 (message p)) = false →
     ∃ bodies st',
       (setMessage p;; getMessages (topic p)) st = (Resolved bodies, st')
       ∧ length bodies = size ({[member_of p]} ∪ s)
       ∧ Some (Js.before ":" (message p)) ∈ bodies).
Proof.
  intros Hs.
  assert (Hread : ∀ st0 s0, set_at ("message:" +:+ topic p) st0 = Some s0 →
            getMessages (topic p) st0
            = (Resolved ((λ m, Js.index (Js.split ":" m) 1) <$> elements s0), st0)).
  { intros st0 s0 Hs0. unfold getMessages, sMembers, set_at in *. async_unfold.
    destruct (keyspace st0 !! _) as [[]|]; inversion Hs0; subst;
      rewrite forEach_push_fmap, ?elements_empty; reflexivity. }
  split.
  - eexists. split; [apply (Hread st s Hs)|]. rewrite length_fmap. reflexivity.
  - intros Hpos Hcolon.
    rewrite (bind_resolved _ _ _ _ _ (setMessage_set p s st Hs)).
    destruct (decide (ttl p ≤ 0)) as [Hle|_]; [lia|].
    eexists _, _. split; [apply Hread|].
    { unfold set_at. simpl. rewrite lookup_insert_eq. reflexivity. }
    split; [rewrite length_fmap; reflexivity|].
    apply list_elem_of_fmap. exists (member_of p). split.
    + symmetry. exact (split_second ":" (sha256 (message p)) (message p) Hcolon).
    + apply elem_of_elements, elem_of_union_l, elem_of_singleton. reflexivity.
Qed.

End MessageCacheMore.

(** ** Time *)

Section Expiry.
Import Redis RedisService Observe.

Lemma advance_lookup (ms : Z) (key : string) (st : db) :
  keyspace (advance ms st) !! key
  = if live (expires st) (now st + ms) key then keyspace st !! key else None.
Proof.
  unfold advance. cbn [keyspace].
  destruct (live (expires st) (now st + ms) key) eqn:Hlive,
           (keyspace st !! key) as [v|] eqn:Hk.
  - apply map_lookup_filter_Some_2; [exact Hk | exact Hlive].
  - apply map_lookup_filter_None_2. left. exact Hk.
  - apply map_lookup_filter_None_2. right. intros v' _. cbn [fst]. congruence.
  - apply map_lookup_filter_None_2. left. exact Hk.
Qed.

Lemma live_deadline (ex : gmap string Z) (clock deadline : Z) (key : string) :
  ex !! key = Some deadline → live ex clock key = bool_decide (clock ≤ deadline).
Proof. intros Hd. unfold live. rewrite Hd. reflexivity. Qed.

Lemma live_forever (ex : gmap string Z) (clock : Z) (key : string) :
  ex !! key = None → live ex clock key = true.
Proof. intros Hd. unfold live. rewrite Hd. reflexivity. Qed.

End Expiry.

(** ** The pending correlator, again *)

Section PendingCorrelatorMore.
Import Redis RedisService Observe.
Context `{Digest} `{Config}.

Lemma setPendingRequest_store (T : string) (id : Z) (body : string) (st : db) :
  0 < maxTTL →
  setPendingRequest T id body st
  = (Resolved tt,
     Db (<[pending_key id := VString (T +:+ ":" +:+ sha256 body)]> (keyspace st))
        (<[pending_key id := now st + maxTTL * 1000]> (expires st)) (now st)).
Proof.
  intros Hpos. unfold setPendingRequest, set, expire. async_unfold. simpl.
  rewrite lookup_insert_eq. destruct (decide (maxTTL ≤ 0)); [lia|].
  simpl. rewrite insert_delete_eq. reflexivity.
Qed.

Lemma getPendingRequest_value (id : Z) (st : db) :
  (∀ val, keyspace st !! pending_key id = Some (VString val) →
          val ≠ EmptyString → getPendingRequest id st = (Resolved val, st))
  ∧ (keyspace st !! pending_key id = None →
     getPendingRequest id st = (Resolved EmptyString, st)).
Proof.
  split.
  - intros val Hk Hval. unfold getPendingRequest.
    rewrite (bind_resolved _ _ _ _ _ (get_string _ _ _ Hk)).
    destruct val; [contradiction | reflexivity].
  - intros Hk. unfold getPendingRequest.
    rewrite (bind_resolved _ _ _ _ _ (get_missing _ _ Hk)). reflexivity.
Qed.

Lemma pending_value_nonempty (T hash : string) : T +:+ ":" +:+ hash ≠ EmptyString.
Proof. destruct (app_colon_nonempty T hash) as (c & s & ->). discriminate. Qed.

(** X9: a pending request takes the place of the one set before for the
    same id, whatever the key held, and the requests of the other ids are
    read as before. *)
Theorem setPendingRequest_overwrites (st : db) (T1 T2 : string) (id : Z)
    (body1 body2 : string) :
  0 < maxTTL →
  ((setPendingRequest T1 id body1;; setPendingRequest T2 id body2;;
    getPendingRequest id) st).1 = Resolved (T2 +:+ ":" +:+ sha256 body2)
  ∧ ∀ id', id' ≠ id →
           (getPendingRequest id' (setPendingRequest T1 id body1 st).2).1
           = (getPendingRequest id' st).1.
Proof.
  intros Hpos. split.
  - rewrite (bind_resolved _ _ _ _ _ (setPendingRequest_store T1 id body1 st Hpos)).
    rewrite (bind_resolved _ _ _ _ _ (setPendingRequest_store T2 id body2 _ Hpos)).
    destruct (getPendingRequest_value id
                (Db (<[pending_key id := VString (T2 +:+ ":" +:+ sha256 body2)]>
                       (<[pending_key id := VString (T1 +:+ ":" +:+ sha256 body1)]>
                          (keyspace st)))
                    (<[pending_key id := now st + maxTTL * 1000]>
                       (<[pending_key id := now st + maxTTL * 1000]> (expires st)))
                    (now st))) as [Hval _].
    simpl. simpl in Hval. rewrite (Hval (T2 +:+ ":" +:+ sha256 body2)); [reflexivity | |].
    + apply lookup_insert_eq.
    + apply pending_value_nonempty.
  - intros id' Hid. rewrite (setPendingRequest_store T1 id body1 st Hpos). cbn [snd].
    match goal with |- (getPendingRequest id' ?st1).1 = _ =>
      assert (Hk : keyspace st1 !! pending_key id' = keyspace st !! pending_key id')
    end.
    { simpl. apply lookup_insert_ne. unfold pending_key. intros E. apply Hid. symmetry.
      apply (inj pretty). exact (append_inj_r _ _ _ E). }
    destruct (read_depends_on_key _ _ _ Hk) as (_ & _ & _ & Hget).
    unfold getPendingRequest. async_unfold.
    match type of Hget with (get ?k ?a).1 = (get ?k ?b).1 =>
      destruct (get k a) as [[r'|e'] s1], (get k b) as [[r|e] s2]
    end; same_result Hget; reflexivity.
Qed.

(** X10: a pending request is read back until the configured maximum time
    to live has passed since it was set, and not after. *)
Theorem pending_request_expires (st : db) (T : string) (id : Z) (body : string) (ms : Z) :
  0 < maxTTL →
  (ms ≤ maxTTL * 1000 →
   (getPendingRequest id (advance ms (setPendingRequest T id body st).2)).1
   = Resolved (T +:+ ":" +:+ sha256 body))
  ∧ (maxTTL * 1000 < ms →
     (getPendingRequest id (advance ms (setPendingRequest T id body st).2)).1
     = Resolved EmptyString).
Proof.
  intros Hpos. rewrite (setPendingRequest_store T id body st Hpos). cbn [snd].
  destruct (getPendingRequest_value id
              (advance ms
                 (Db (<[pending_key id := VString (T +:+ ":" +:+ sha256 body)]> (keyspace st))
                     (<[pending_key id := now st + maxTTL * 1000]> (expires st)) (now st))))
    as [Hval Hnone].
  rewrite advance_lookup in Hval, Hnone. cbn [keyspace expires now] in Hval, Hnone.
  rewrite (live_deadline _ _ (now st + maxTTL * 1000)) in Hval, Hnone
    by apply lookup_insert_eq.
  rewrite lookup_insert_eq in Hval, Hnone.
  split; intros Hms.
  - rewrite bool_decide_eq_true_2 in Hval by lia.
    rewrite (Hval _ eq_refl (pending_value_nonempty _ _)). reflexivity.
  - rewrite bool_decide_eq_false_2 in Hnone by lia.
    rewrite (Hnone eq_refl). reflexivity.
Qed.

End PendingCorrelatorMore.

(** ** The queues and time *)

Section QueuesMore.
Import Redis RedisService Observe.
Context {V : Type} `{SafeJson V}.

Lemma list_at_advance (ms : Z) (key : string) (st : db) :
  list_at key (advance ms st)
  = if live (expires st) (now st + ms) key then list_at key st else Some [].
Proof.
  unfold list_at. rewrite advance_lookup.
  destruct (live (expires st) (now st + ms) key); reflexivity.
Qed.

Lemma setLegacyCached_store (message : V) (l : list string) (st : db) :
  let key := "legacy:" +:+ topic_of message in
  list_at key st = Some l →
  setLegacyCached message st
  = (Resolved tt,
     Db (<[key := VList (safeJsonStringify message :: l)]> (keyspace st))
        (<[key := now st + SIX_HOURS * 1000]> (expires st)) (now st)).
Proof.
  intros key Hl. unfold setLegacyCached. fold key.
  rewrite (bind_resolved _ _ _ _ _ (lPush_list _ _ _ _ Hl)).
  rewrite (bind_resolved _ _ true _
             (Db (<[key := VList (safeJsonStringify message :: l)]> (keyspace st))
                 (<[key := now st + SIX_HOURS * 1000]> (expires st)) (now st))).
  - reflexivity.
  - rewrite expire_positive; [reflexivity | | reflexivity].
    simpl. rewrite lookup_insert_eq. eauto.
Qed.

(** X11: a legacy message, and with it what its list held before, is read
    until six hours have passed since the push, and not after. *)
Theorem legacy_messages_expire (st : db) (message : V) (l : list string) (ms : Z) :
  list_at ("legacy:" +:+ topic_of message) st = Some l →
  (ms ≤ SIX_HOURS * 1000 →
   (getLegacyCached (topic_of message) (advance ms (setLegacyCached message st).2)).1
   = Resolved (safeJsonParse <$> safeJsonStringify message :: l))
  ∧ (SIX_HOURS * 1000 < ms →
     (getLegacyCached (topic_of message) (advance ms (setLegacyCached message st).2)).1
     = Resolved []).
Proof.
  intros Hl. rewrite (setLegacyCached_store message l st Hl). cbn [snd].
  set (key := "legacy:" +:+ topic_of message).
  set (st1 := Db _ _ _).
  assert (Hadv : list_at key (advance ms st1)
                 = if bool_decide (now st + ms ≤ now st + SIX_HOURS * 1000)
                   then Some (safeJsonStringify message :: l) else Some []).
  { rewrite list_at_advance. subst st1. cbn [expires now].
    rewrite (live_deadline _ _ (now st + SIX_HOURS * 1000)) by apply lookup_insert_eq.
    rewrite list_at_insert. reflexivity. }
  split; intros Hms.
  - rewrite bool_decide_eq_true_2 in Hadv by lia.
    destruct (getLegacyCached_drains _ _ _ Hadv) as (st2 & -> & _). reflexivity.
  - rewrite bool_decide_eq_false_2 in Hadv by lia.
    destruct (getLegacyCached_drains _ _ _ Hadv) as (st2 & -> & _). reflexivity.
Qed.

Lemma each_setNotification (T : string) (ns : list V) (l : list string) (st : db) :
  Forall (λ n, topic_of n = T) ns →
  list_at ("notification:" +:+ T) st = Some l →
  ∃ st', each setNotification ns st = (Resolved tt, st')
         ∧ list_at ("notification:" +:+ T) st'
           = Some (reverse (safeJsonStringify <$> ns) ++ l)
         ∧ expires st' = expires st ∧ now st' = now st.
Proof.
  intros HT. revert l st. induction HT as [|n ns Hn _ IH]; intros l st Hl.
  - exists st. repeat split; [exact Hl].
  - subst T.
    assert (E1 : setNotification n st
                 = (Resolved tt,
                    Db (<["notification:" +:+ topic_of n
                          := VList (safeJsonStringify n :: l)]> (keyspace st))
                       (expires st) (now st))).
    { unfold setNotification. rewrite (bind_resolved _ _ _ _ _ (lPush_list _ _ _ _ Hl)).
      reflexivity. }
    destruct (IH (safeJsonStringify n :: l) _
                (list_at_insert _ (safeJsonStringify n :: l) st (expires st) (now st)))
      as (st2 & E2 & Hl2 & Hex & Hnow).
    exists st2. split; [|split; [|split]].
    + simpl. rewrite (bind_resolved _ _ _ _ _ E1). exact E2.
    + rewrite Hl2, fmap_cons, reverse_cons, <- app_assoc. reflexivity.
    + exact Hex.
    + exact Hnow.
Qed.

(** X12: notifications accumulate and stay: pushed to a list that has no
    deadline, they are all read, latest first and before what the list
    held, however much time has passed. *)
Theorem notifications_persist (st : db) (T : string) (ns : list V) (l : list string) (ms : Z) :
  list_at ("notification:" +:+ T) st = Some l →
  expires st !! ("notification:" +:+ T) = None →
  Forall (λ n, topic_of n = T) ns →
  ∃ st', each setNotification ns st = (Resolved tt, st')
         ∧ (getNotification T (advance ms st')).1
           = Resolved (safeJsonParse <$> reverse (safeJsonStringify <$> ns) ++ l).
Proof.
  intros Hl Hex HT.
  destruct (each_setNotification T ns l st HT Hl) as (st' & E & Hl' & Hex' & _).
  exists st'. split; [exact E|].
  assert (Hadv : list_at ("notification:" +:+ T) (advance ms st')
                 = Some (reverse (safeJsonStringify <$> ns) ++ l)).
  { rewrite list_at_advance, live_forever; [exact Hl' | congruence]. }
  unfold getNotification.
  rewrite (bind_resolved _ _ _ _ _ (lRange_all_list _ _ _ Hadv)), forEach_push_fmap.
  reflexivity.
Qed.

End QueuesMore.

(** ** The log and its listeners *)

Section StreamsMore.
Import Redis RedisService Observe Relay.
Context `{IridiumEncoder}.

Lemma id_lt_trans (a b c : Z * Z) : id_lt a b → id_lt b c → id_lt a c.
Proof. unfold id_lt. lia. Qed.

Lemma next_id_above_last (es : list entry) (e : entry) (clock : Z) :
  id_lt (entry_id e) (next_id (es ++ [e]) clock).
Proof.
  unfold next_id. rewrite last_snoc. destruct (entry_id e) as [ms seq].
  destruct (decide (ms < clock)); unfold id_lt; simpl; lia.
Qed.

Lemma next_id_above (es : list entry) (clock : Z) (i : Z * Z) :
  StronglySorted id_lt (entry_id <$> es) →
  i ∈ entry_id <$> es → id_lt i (next_id es clock).
Proof.
  destruct es as [|e es _] using rev_ind; [intros _ Hi; inversion Hi|].
  rewrite fmap_app. intros Hsorted [Hi|Hi]%elem_of_app.
  - apply (id_lt_trans _ (entry_id e)); [|apply next_id_above_last].
    apply (StronglySorted_app_1_elem_of _ _ _ _ _ Hsorted Hi). simpl. left.
  - apply list_elem_of_singleton in Hi as ->. apply next_id_above_last.
Qed.

(** X13: bodies published to a topic are appended to its log in the order
    of the calls, each as the payload of one entry, encoded with the prompt
    flag set whatever [opts] says; the ids of the log stay in increasing
    order. *)
Theorem published_bodies_are_logged_in_order (st : db) (T : string)
    (calls : list (string * option IridiumV1MessageOptions)) (es : list entry) :
  stream_at T st = Some es →
  StronglySorted id_lt (entry_id <$> es) →
  ∃ st' added,
    each (λ c, publish T c.1 c.2) calls st = (Resolved tt, st')
    ∧ stream_at T st' = Some (es ++ added)
    ∧ entry_message <$> added
      = (λ c, [("payload", encode c.1 {| prompt := true |})]) <$> calls
    ∧ StronglySorted id_lt (entry_id <$> es ++ added).
Proof.
  revert st es. induction calls as [|[body opts] calls IH]; intros st es Hes Hsorted.
  - exists st, []. rewrite app_nil_r. auto.
  - set (e := Entry (next_id es (now st)) [("payload", encode body {| prompt := true |})]).
    assert (E1 : publish T body opts st
                 = (Resolved tt,
                    Db (<[T := VStream (es ++ [e])]> (keyspace st)) (expires st) (now st))).
    { unfold publish. rewrite (bind_resolved _ _ _ _ _ (xAdd_auto_stream _ _ _ _ Hes)).
      reflexivity. }
    destruct (IH (Db (<[T := VStream (es ++ [e])]> (keyspace st)) (expires st) (now st))
                (es ++ [e])) as (st' & added & E2 & Hes' & Hmsg & Hsorted').
    + unfold stream_at. simpl. rewrite lookup_insert_eq. reflexivity.
    + rewrite fmap_app. apply StronglySorted_app_2; [|exact Hsorted|repeat constructor].
      intros i j Hi Hj. apply list_elem_of_singleton in Hj as ->.
      apply (next_id_above es (now st) i Hsorted Hi).
    + exists st', (e :: added). split; [|split; [|split]].
      * simpl. rewrite (bind_resolved _ _ _ _ _ E1). exact E2.
      * rewrite Hes', <- app_assoc. reflexivity.
      * rewrite !fmap_cons, Hmsg. reflexivity.
      * rewrite <- app_assoc in Hsorted'. exact Hsorted'.
Qed.




End StreamsMore.

(** ** The same, on concrete stores *)

Section MoreAtRuntime.
Import Redis RedisService Observe Relay Api.
#[local] Existing Instance Runtime.digest.
#[local] Existing Instance Runtime.config.
#[local] Existing Instance Runtime.safe_json.
#[local] Existing Instance Runtime.encoder.

(** X4 on the littered store: storing a message of ["T"] leaves the legacy
    queue of ["T"] alone. *)
Lemma calls_leave_the_other_keys_witness :
  let c : call Runtime.json := SetMessage {| topic := "T"; message := "B"; ttl := 60 |} in
  let st := Scenario.littered in
  keyspace (perform c st).2 !! "legacy:T" = keyspace st !! "legacy:T"
  ∧ expires (perform c st).2 !! "legacy:T" = expires st !! "legacy:T"
  ∧ now (perform c st).2 = now st.
Proof.
  intros c st. apply (calls_leave_the_other_keys c st "legacy:T"). discriminate.
Defined.

(** X6 on the littered store: publishing to ["T"] does not change what the
    notifications of ["T"] read. *)
Lemma reads_are_not_disturbed_witness :
  let c : call Runtime.json := Publish "T" "ab" None in
  let st := Scenario.littered in
  (getNotification (V := Runtime.json) "T" (perform c st).2).1
  = (getNotification "T" st).1.
Proof.
  intros c st. destruct (reads_are_not_disturbed c st) as (_ & Hnotification & _).
  apply (Hnotification "T"). discriminate.
Defined.

(** X7 on a set of one message: deleted by its digest, it is gone. *)
Lemma deleteMessage_removes_matching_witness :
  let st := (setMessage {| topic := "T"; message := "ab"; ttl := 60 |} Redis.empty).2 in
  let s : gset string := {[ sha256 "ab" +:+ ":ab" ]} in
  ∃ st', deleteMessage "T" (sha256 "ab") st = (Resolved tt, st')
         ∧ stored "T" st'
           = filter (λ m, Glob.stringmatch (sha256 "ab" +:+ ":*") m = false) s
         ∧ getMessage "T" (sha256 "ab") st' = (Resolved None, st').
Proof.
  intros st s. apply (deleteMessage_removes_matching st "T" (sha256 "ab") s).
  vm_compute. reflexivity.
Defined.

(** X8 on the empty store: nothing is read before, one body after. *)
Lemma getMessages_after_setMessage_witness :
  let p := {| topic := "T"; message := "ab"; ttl := 60 |} in
  (∃ bodies, getMessages "T" Redis.empty = (Resolved bodies, Redis.empty)
             ∧ length bodies = size (∅ : gset string))
  ∧ ∃ bodies st',
      (setMessage p;; getMessages "T") Redis.empty = (Resolved bodies, st')
      ∧ length bodies = size ({[member_of p]} ∪ (∅ : gset string))
      ∧ Some (Js.before ":" "ab") ∈ bodies.
Proof.
  intros p. destruct (getMessages_after_setMessage Redis.empty p ∅) as [Hnone Hone].
  - reflexivity.
  - split; [exact Hnone|]. apply Hone; [reflexivity | vm_compute; reflexivity].
Defined.

(** X9 on the empty store: the request of id 42, set for ["T"] and then for
    ["U"]. *)
Lemma setPendingRequest_overwrites_witness :
  ((setPendingRequest "T" 42 "ab";; setPendingRequest "U" 42 "cd";;
    getPendingRequest 42) Redis.empty).1 = Resolved ("U" +:+ ":" +:+ sha256 "cd")
  ∧ ∀ id', id' ≠ 42 →
           (getPendingRequest id' (setPendingRequest "T" 42 "ab" Redis.empty).2).1
           = (getPendingRequest id' Redis.empty).1.
Proof. apply (setPendingRequest_overwrites Redis.empty "T" "U" 42 "ab" "cd"). reflexivity. Defined.

(** X10 with a week as the maximum: read after a second, not after a week
    and a millisecond. *)
Lemma pending_request_expires_witness :
  let st ms := advance ms (setPendingRequest "T" 42 "ab" Redis.empty).2 in
  (getPendingRequest 42 (st 1000)).1 = Resolved ("T" +:+ ":" +:+ sha256 "ab")
  ∧ (getPendingRequest 42 (st 604800001)).1 = Resolved EmptyString.
Proof.
  intros st. split.
  - destruct (pending_request_expires Redis.empty "T" 42 "ab" 1000) as [Hlive _];
      [reflexivity|]. apply Hlive. vm_compute. discriminate.
  - destruct (pending_request_expires Redis.empty "T" 42 "ab" 604800001) as [_ Hgone];
      [reflexivity|]. apply Hgone. reflexivity.
Defined.

(** X11 on the empty store: a legacy message after an hour and after six
    hours and a millisecond. *)
Lemma legacy_messages_expire_witness :
  let m := Scenario.legacy "ab" in
  let st ms := advance ms (setLegacyCached m Redis.empty).2 in
  (getLegacyCached "T" (st 3600000)).1
  = Resolved (safeJsonParse <$> [safeJsonStringify m])
  ∧ (getLegacyCached (V := Runtime.json) "T" (st 21600001)).1 = Resolved [].
Proof.
  intros m st. split.
  - destruct (legacy_messages_expire Redis.empty m [] 3600000) as [Hlive _];
      [reflexivity|]. apply Hlive. vm_compute. discriminate.
  - destruct (legacy_messages_expire Redis.empty m [] 21600001) as [_ Hgone];
      [reflexivity|]. apply Hgone. reflexivity.
Defined.

(** X12 on the empty store: two notifications, read a long time after. *)
Lemma notifications_persist_witness :
  let ns := [Scenario.notification; Scenario.notification] in
  ∃ st', each setNotification ns Redis.empty = (Resolved tt, st')
         ∧ (getNotification "T" (advance 1000000000000 st')).1
           = Resolved (safeJsonParse <$> reverse (safeJsonStringify <$> ns) ++ []).
Proof.
  intros ns. apply (notifications_persist Redis.empty "T" ns [] 1000000000000).
  - reflexivity.
  - reflexivity.
  - repeat constructor.
Defined.

(** X13 on the empty store: two bodies, the second asked without prompt. *)
Lemma published_bodies_are_logged_in_order_witness :
  let calls := [("a", None); ("b", Some {| prompt := false |})] in
  ∃ st' added,
    each (λ c, publish "T" c.1 c.2) calls Redis.empty = (Resolved tt, st')
    ∧ stream_at "T" st' = Some ([] ++ added)
    ∧ entry_message <$> added
      = (λ c, [("payload", encode c.1 {| prompt := true |})]) <$> calls
    ∧ StronglySorted id_lt (entry_id <$> [] ++ added).
Proof.
  intros calls. apply (published_bodies_are_logged_in_order Redis.empty "T" calls []).
  - reflexivity.
  - constructor.
Defined.


End MoreAtRuntime.
